(** * CrowTalk: the sonogram pipeline of [build_crowtalk.py]

    A shallow embedding of [make_sono] (build_crowtalk.py, lines 19-65):
    decode an audio file, decimate it, compute a spectrogram, convert it to
    decibels, derive the colour range from two percentiles, render a PNG and
    return it base64-encoded; then of the rest of the script: the icons
    (lines 75-87), the loop that collects the recordings (lines 103-126),
    and, from the page script of the template, the filter chips and the
    row order (lines 1709-1853).

    Conventions.
    - Python integers are [Z]; [//] on them is [Z.div] (both round towards
      minus infinity).
    - numpy floating-point values are modelled by the real numbers they
      denote ([R]); rounding is not modelled, casts between float types
      are written where the source has them and leave the value as it is,
      and no statement fixes the decimal value of a logarithm.
    - A Python call that may raise is a value of [res]: [Ret v] or
      [Raise e].  Only exceptions deriving from [Exception] are modelled.
    - [soundfile], [scipy.io.wavfile], the numerical kernel of
      [scipy.signal.spectrogram], matplotlib's rendering and [base64] are
      not part of the repository: they are the fields of [Libs].  What numpy
      and scipy do around them (argument checks, reductions, indexing) is
      written out. *)

From Stdlib Require Import String.
From Stdlib Require Import ZArith List Bool Lia Reals Lra Permutation Sorted.
From Stdlib Require Import Ascii DecimalString QArith OrdersEx.
Import ListNotations.

Open Scope Z_scope.

(** ** Exceptions and results *)

Inductive exn : Type :=
| ImportError (msg : string)
| OSError (msg : string)
| ValueError (msg : string)
| IndexError (msg : string)
| RuntimeError (msg : string).

(** [str(e)] *)
Definition exn_str (e : exn) : string :=
  match e with
  | ImportError m | OSError m | ValueError m | IndexError m | RuntimeError m => m
  end.

Inductive res (A : Type) : Type :=
| Ret (a : A)
| Raise (e : exn).
Arguments Ret {A} a.
Arguments Raise {A} e.

Definition bind {A B : Type} (m : res A) (k : A -> res B) : res B :=
  match m with
  | Ret a => k a
  | Raise e => Raise e
  end.

(** [try: body except Exception as e: handler(e)] *)
Definition try_except {A : Type} (body : res A) (handler : exn -> res A) : res A :=
  match body with
  | Ret a => Ret a
  | Raise e => handler e
  end.

Declare Scope res_scope.
Delimit Scope res_scope with res.
Notation "x <- m ;; k" := (bind m (fun x => k))
  (at level 61, m at next level, right associativity) : res_scope.
Notation "' p <- m ;; k" := (bind m (fun p => k))
  (at level 61, p pattern, m at next level, right associativity) : res_scope.

(** ** numpy arrays as the pipeline uses them *)

Inductive dtype : Type := UInt8 | Int16 | Int32 | Int64 | Float32 | Float64.

(** [np.iinfo(dt).max]; [np.iinfo] raises [ValueError] on a dtype that is
    not an integer type. *)
Definition iinfo_max (dt : dtype) : res Z :=
  match dt with
  | UInt8 => Ret 255
  | Int16 => Ret 32767
  | Int32 => Ret 2147483647
  | Int64 => Ret 9223372036854775807
  | Float32 | Float64 => Raise (ValueError "Invalid integer data type 'f'.")
  end.

(** [np.iinfo(dt).min] for the integer types. *)
Definition iinfo_min (dt : dtype) : Z :=
  match dt with
  | UInt8 => 0
  | Int16 => -32768
  | Int32 => -2147483648
  | Int64 => -9223372036854775808
  | Float32 | Float64 => 0
  end.

Definition is_integer_dtype (dt : dtype) : bool :=
  match dt with
  | UInt8 | Int16 | Int32 | Int64 => true
  | Float32 | Float64 => false
  end.

(** dtype of [a.mean(axis=1)]: float64, except that float32 stays float32. *)
Definition mean_dtype (dt : dtype) : dtype :=
  match dt with
  | Float32 => Float32
  | _ => Float64
  end.

(** What [wavfile.read] hands back: shape [(N,)] for one channel, shape
    [(N, C)] for several. *)
Inductive ndarray : Type :=
| Arr1 (dt : dtype) (v : list R)
| Arr2 (dt : dtype) (v : list (list R)).

Definition ndim (a : ndarray) : Z :=
  match a with
  | Arr1 _ _ => 1
  | Arr2 _ _ => 2
  end.

Definition arr_dtype (a : ndarray) : dtype :=
  match a with
  | Arr1 dt _ | Arr2 dt _ => dt
  end.

Definition Rsum (l : list R) : R := fold_right Rplus 0%R l.

Definition row_mean (row : list R) : R :=
  (Rsum row / INR (length row))%R.

(** [a.mean(axis=1)] on a 2-d array. *)
Definition mean_axis1 (rows : list (list R)) : list R := map row_mean rows.

(** [raw.astype(np.float32)] on a 1-d array (2-d input never reaches it). *)
Definition astype_float32 (a : ndarray) : list R :=
  match a with
  | Arr1 _ v => v
  | Arr2 _ v => concat v
  end.

(** [data.max()]: a zero-size array has no maximum. *)
Definition np_max (l : list R) : res R :=
  match l with
  | [] => Raise (ValueError "zero-size array to reduction operation maximum which has no identity")
  | x :: r => Ret (fold_left Rmax r x)
  end.

Definition Rle_bool (x y : R) : bool := if Rle_dec x y then true else false.
Definition Rlt_bool (x y : R) : bool := if Rlt_dec x y then true else false.

(** [a[m]] with a boolean array [m] along the first axis: the lengths must
    agree, the entries under [true] are kept in order. *)
Fixpoint compress {A : Type} (m : list bool) (a : list A) : list A :=
  match m, a with
  | b :: m', x :: a' => if b then x :: compress m' a' else compress m' a'
  | _, _ => []
  end.

Definition bool_index {A : Type} (m : list bool) (a : list A) : res (list A) :=
  if Nat.eqb (length m) (length a) then Ret (compress m a)
  else Raise (IndexError "boolean index did not match indexed array along axis 0").

(** [a[::step]] for [step >= 1]: [skip] elements are dropped before the next
    one is kept. *)
Fixpoint stride_from {A : Type} (step skip : nat) (l : list A) : list A :=
  match l with
  | [] => []
  | x :: r =>
      match skip with
      | O => x :: stride_from step (step - 1) r
      | S s => stride_from step s r
      end
  end.

Definition stride {A : Type} (step : Z) (l : list A) : list A :=
  stride_from (Z.to_nat step) 0 l.

Definition len {A : Type} (l : list A) : Z := Z.of_nat (length l).

(** ** The dB transform and the percentiles *)

Definition log10 (x : R) : R := (ln x / ln 10)%R.

(** [10 * np.log10(np.maximum(p, 1e-10))] on one element.  The program
    computes it in single precision; [dB p] is the real number that value
    approximates, and nothing below relies on a decimal value of it (the
    program's value at the floor is not exactly -100). *)
Definition dB (p : R) : R := (10 * log10 (Rmax p 1e-10))%R.

Fixpoint insert_sorted (x : R) (l : list R) : list R :=
  match l with
  | [] => [x]
  | y :: r => if Rle_dec x y then x :: y :: r else y :: insert_sorted x r
  end.

(** [np.sort] on a flat array. *)
Definition sortR (l : list R) : list R := fold_right insert_sorted [] l.

(** Linear interpolation in a sorted array at the index [k / 100] ([k] in
    hundredths): between the element at the integer part and its successor
    (the last element has none), at the fractional part. *)
Definition interpolate (s : list R) (k : Z) : R :=
  let lo := Z.to_nat (k / 100) in
  let hi := Nat.min (lo + 1) (length s - 1) in
  let g := (IZR (k mod 100) / 100)%R in
  (nth lo s 0 + g * (nth hi s 0 - nth lo s 0))%R.

(** [np.percentile(a, q)] for an integer [q], default method (linear
    interpolation): with [n] values, the sorted array is read at the index
    [(n - 1) * q / 100].  An empty array is refused: indexing its last
    element fails. *)
Definition np_percentile (a : list R) (q : Z) : res R :=
  match a with
  | [] => Raise (IndexError "index -1 is out of bounds for axis 0 with size 0")
  | _ :: _ =>
      let s := sortR a in
      Ret (interpolate s (Z.of_nat (length s - 1) * q))
  end.

(** Number of entries at or below [x], and at or above [x]. *)
Definition count_le (x : R) (l : list R) : nat :=
  length (filter (fun y => Rle_bool y x) l).
Definition count_ge (x : R) (l : list R) : nat :=
  length (filter (fun y => Rle_bool x y) l).

(** ** The libraries *)

Definition bytes : Type := list Byte.byte.

Record Libs : Type := {
  (** [import soundfile as sf; sf.read(path, always_2d=True)] on the
      content of the file ([None]: no such file): frames of channels, and
      the sample rate. *)
  sf_read : option bytes -> res (list (list R) * Z);
  (** [from scipy.io import wavfile; wavfile.read(path)]: sample rate and
      samples. *)
  wavfile_read : option bytes -> res (Z * ndarray);
  (** the transform inside [scipy.signal.spectrogram], once its arguments
      are accepted: frequencies, segment times, power rows (one per
      frequency). *)
  stft : list R -> Z -> Z -> Z -> Z -> list R * list R * list (list R);
  (** figure, [pcolormesh(t, f, C, vmin, vmax, cmap=_CROW_CMAP)], axes
      styling and [savefig] to PNG bytes. *)
  savefig : list R -> list R -> list (list R) -> R -> R -> res bytes;
  (** [base64.b64encode(b).decode()] *)
  b64encode : bytes -> string
}.

(** [scipy.signal.spectrogram(x, fs, nperseg=, noverlap=, nfft=)]: a segment
    longer than the input is cut to the input (with a warning), an empty
    input gives empty arrays, and the segment length, FFT size and overlap
    are checked in this order. *)
Definition spectrogram (L : Libs) (x : list R) (fs nperseg noverlap nfft : Z)
  : res (list R * list R * list (list R)) :=
  let nperseg := if len x <? nperseg then len x else nperseg in
  if len x =? 0 then Ret ([], [], [])
  else if nperseg <? 1 then
    Raise (ValueError "nperseg must be a positive integer")
  else if nfft <? nperseg then
    Raise (ValueError "nfft must be greater than or equal to nperseg.")
  else if nperseg <=? noverlap then
    Raise (ValueError "noverlap must be less than nperseg.")
  else Ret (stft L x fs nperseg noverlap nfft).

(** ** The world around one call *)

Record World : Type := {
  files : string -> option bytes;
  clock : Z;
  rng_state : Z;
  stdout : list string
}.

Definition print (line : string) (w : World) : World :=
  {| files := files w; clock := clock w; rng_state := rng_state w;
     stdout := stdout w ++ [line] |}.

(** ** [make_sono] *)

Open Scope res_scope.

(** [raw.mean(axis=1)] *)
Definition mean1 (a : ndarray) : ndarray :=
  match a with
  | Arr2 dt v => Arr1 (mean_dtype dt) (mean_axis1 v)
  | Arr1 dt v => Arr1 dt v
  end.

(** Lines 22-24: the general sound-file reader.  With [always_2d=True] the
    frames come as a 2-d float64 array; the channels are averaged and the
    result is cast to float32. *)
Definition sf_strategy (L : Libs) (content : option bytes) : res (list R * Z) :=
  '(raw, sr) <- sf_read L content ;;
  Ret (astype_float32 (mean1 (Arr2 Float64 raw)), sr).

(** Lines 29-33, on what [wavfile.read] returned.  [raw] is rebound by the
    averaging, so [raw.dtype] of line 33 is the dtype after it. *)
Definition wav_normalize (raw : ndarray) : res (list R) :=
  let raw := if 1 <? ndim raw then mean1 raw else raw in
  let data := astype_float32 raw in
  m <- np_max data ;;
  if Rlt_bool 1 m then
    hi <- iinfo_max (arr_dtype raw) ;;
    Ret (map (fun x => (x / IZR hi)%R) data)
  else Ret data.

(** Lines 27-33: the WAV-only fallback. *)
Definition wav_strategy (L : Libs) (content : option bytes) : res (list R * Z) :=
  '(sr, raw) <- wavfile_read L content ;;
  data <- wav_normalize raw ;;
  Ret (data, sr).

(** Lines 21-36 without the handler of the last failure. *)
Definition decode (L : Libs) (content : option bytes) : res (list R * Z) :=
  try_except (sf_strategy L content) (fun _ => wav_strategy L content).

(** Lines 39-42. *)
Definition resample {A : Type} (data : list A) (sr : Z) : list A * Z :=
  if 22050 <? sr then
    let step := sr / 22050 in
    (stride step data, sr / step)
  else (data, sr).

(** Line 44 and the [noverlap] argument of line 45. *)
Definition nperseg_of (n : Z) : Z := Z.min 512 (n / 8).
Definition noverlap_of (nperseg : Z) : Z := nperseg * 3 / 4.

(** Line 46. *)
Definition freq_mask (f : list R) : list bool :=
  map (fun x => Rle_bool x 8000) f.

(** Line 47, after the rows were selected. *)
Definition to_dB (rows : list (list R)) : list (list R) := map (map dB) rows.

(** Line 48. *)
Definition clip_bounds (Sxx_db : list (list R)) : res (R * R) :=
  vmin <- np_percentile (concat Sxx_db) 5 ;;
  vmax <- np_percentile (concat Sxx_db) 99 ;;
  Ret (vmin, vmax).

(** Lines 38-65. *)
Definition render_sono (L : Libs) (data : list R) (sr : Z) : res (option string) :=
  let '(data, sr) := resample data sr in
  let nperseg := nperseg_of (len data) in
  '(f, t, Sxx) <- spectrogram L data sr nperseg (noverlap_of nperseg) 1024 ;;
  let mask := freq_mask f in
  rows <- bool_index mask Sxx ;;
  let Sxx_db := to_dB rows in
  '(vmin, vmax) <- clip_bounds Sxx_db ;;
  fm <- bool_index mask f ;;
  png <- savefig L t (map (fun x => (x / 1000)%R) fm) Sxx_db vmin vmax ;;
  Ret (Some (b64encode L png)).

Definition skip_message (e : exn) : string :=
  ("    ⚠ sono skip (" ++ exn_str e ++ ")")%string.

Definition make_sono (L : Libs) (path : string) (w : World)
  : res (option string) * World :=
  match decode L (files w path) with
  | Raise e => (Ret None, print (skip_message e) w)
  | Ret (data, sr) => (render_sono L data sr, w)
  end.

(** ** Stand-ins for the libraries, to run the pipeline on concrete inputs

    [fixture sf wav spec png]: [sf.read] answers [sf], [wavfile.read]
    answers [wav], the transform answers [spec], the renderer answers
    [png]. *)
Definition fixture (sf : res (list (list R) * Z)) (wav : res (Z * ndarray))
    (spec : list R * list R * list (list R)) (png : res bytes) : Libs :=
  {| sf_read := fun _ => sf;
     wavfile_read := fun _ => wav;
     stft := fun _ _ _ _ _ => spec;
     savefig := fun _ _ _ _ _ => png;
     b64encode := fun _ => "iVBORw0KGgo="%string |}.

(** [soundfile] is not installed. *)
Definition no_soundfile : res (list (list R) * Z) :=
  Raise (ImportError "No module named 'soundfile'").

(** [wavfile.read] on bytes that are no RIFF file. *)
Definition not_a_wav : res (Z * ndarray) :=
  Raise (ValueError "File format b'abc' not understood.").

(** Three frequency rows (0 Hz, 4 kHz, 11.025 kHz) by two time frames, no
    power anywhere: what silence transforms to. *)
Definition silent_spec : list R * list R * list (list R) :=
  ([0; 4000; 11025]%R, [0; 1]%R, [[0; 0]; [0; 0]; [0; 0]]%R).

Definition png_stub : bytes := [Byte.x89; Byte.x50; Byte.x4e; Byte.x47].

(** A world with one file. *)
Definition world_with (name : string) (content : bytes) (now seed : Z) : World :=
  {| files := fun p => if String.eqb p name then Some content else None;
     clock := now; rng_state := seed; stdout := [] |}.

(** [z] is a sample value of the integer type [dt]. *)
Definition representable (dt : dtype) (z : Z) : Prop :=
  exists hi, iinfo_max dt = Ret hi /\ iinfo_min dt <= z <= hi.

(** All entries of a matrix are the value [c]. *)
Definition uniform (c : R) (m : list (list R)) : Prop :=
  Forall (Forall (eq c)) m.

(** * The rest of the build script

    ** Python strings

    A [string] holds the UTF-8 bytes of a Python [str].  Searching for
    ASCII text and comparing ([sorted]) give the same answers on the bytes
    as on the code points. *)

(** [s.endswith(suffix)] *)
Fixpoint endswith (s suffix : string) : bool :=
  (s =? suffix)%string ||
  match s with
  | EmptyString => false
  | String _ s' => endswith s' suffix
  end.

(** [s.startswith(p)] *)
Definition startswith (s p : string) : bool := prefix p s.

(** [s[n:]] and [s[:n]] for [n >= 0] *)
Fixpoint drop (n : nat) (s : string) : string :=
  match n, s with
  | O, _ => s
  | S _, EmptyString => EmptyString
  | S n', String _ s' => drop n' s'
  end.

Fixpoint take (n : nat) (s : string) : string :=
  match n, s with
  | O, _ => EmptyString
  | S _, EmptyString => EmptyString
  | S n', String a s' => String a (take n' s')
  end.

(** [s.split(c)[0]] for a one-character separator: what comes before the
    first [c]. *)
Fixpoint before_char (c : ascii) (s : string) : string :=
  match s with
  | EmptyString => EmptyString
  | String a s' => if Ascii.eqb a c then EmptyString else String a (before_char c s')
  end.

(** The first occurrence of [sep] in [s]: the text before it and the text
    after it. *)
Fixpoint split_once (sep s : string) : option (string * string) :=
  if prefix sep s then Some (EmptyString, drop (String.length sep) s)
  else
    match s with
    | EmptyString => None
    | String a s' =>
        match split_once sep s' with
        | Some (b, r) => Some (String a b, r)
        | None => None
        end
    end.

(** [s.split(sep, 1)] for a non-empty [sep] *)
Definition split1 (sep s : string) : list string :=
  match split_once sep s with
  | Some (b, r) => [b; r]
  | None => [s]
  end.

(** [s.rfind(c)] for one character: [-1] when [c] does not occur. *)
Fixpoint rfind_nat (c : ascii) (s : string) : option nat :=
  match s with
  | EmptyString => None
  | String a s' =>
      match rfind_nat c s' with
      | Some i => Some (S i)
      | None => if Ascii.eqb a c then Some O else None
      end
  end.

Definition rfind (c : ascii) (s : string) : Z :=
  match rfind_nat c s with
  | Some i => Z.of_nat i
  | None => -1
  end.

(** [s.rsplit(c, 1)[-1]]: what follows the last [c], or all of [s]. *)
Definition after_last (c : ascii) (s : string) : string :=
  match rfind_nat c s with
  | Some i => drop (S i) s
  | None => s
  end.

Fixpoint has_other_than (c : ascii) (s : string) : bool :=
  match s with
  | EmptyString => false
  | String a s' => negb (Ascii.eqb a c) || has_other_than c s'
  end.

(** [os.path.splitext(p)] (posixpath): the extension starts at the last
    dot of the last path component, unless only dots precede it there. *)
Definition splitext (p : string) : string * string :=
  let sepIndex := rfind "/" p in
  let dotIndex := rfind "." p in
  if sepIndex <? dotIndex then
    let first := Z.to_nat (sepIndex + 1) in
    let stem := take (Z.to_nat dotIndex - first) (drop first p) in
    if has_other_than "." stem
    then (take (Z.to_nat dotIndex) p, drop (Z.to_nat dotIndex) p)
    else (p, EmptyString)
  else (p, EmptyString).

(** [os.path.join(a, b)] (posixpath) *)
Definition path_join (a b : string) : string :=
  if startswith b "/" then b
  else if (a =? "")%string || endswith a "/" then (a ++ b)%string
  else (a ++ "/" ++ b)%string.

Definition utf8 (codes : list nat) : string :=
  string_of_list_ascii (map ascii_of_nat codes).

(** The characters [str.strip()] removes, in UTF-8: the ASCII white space
    (tab to carriage return, file to unit separator, space) and U+0085,
    U+00A0, U+1680, U+2000 to U+200A, U+2028, U+2029, U+202F, U+205F,
    U+3000. *)
Definition whitespace : list string :=
  map utf8
    [[9]; [10]; [11]; [12]; [13]; [28]; [29]; [30]; [31]; [32];
     [194; 133]; [194; 160]; [225; 154; 128];
     [226; 128; 128]; [226; 128; 129]; [226; 128; 130]; [226; 128; 131];
     [226; 128; 132]; [226; 128; 133]; [226; 128; 134]; [226; 128; 135];
     [226; 128; 136]; [226; 128; 137]; [226; 128; 138];
     [226; 128; 168]; [226; 128; 169]; [226; 128; 175];
     [226; 129; 159]; [227; 128; 128]]%nat.

Fixpoint lstrip_fuel (fuel : nat) (s : string) : string :=
  match fuel with
  | O => s
  | S fuel' =>
      match find (fun ws => prefix ws s) whitespace with
      | Some ws => lstrip_fuel fuel' (drop (String.length ws) s)
      | None => s
      end
  end.

Fixpoint rstrip_fuel (fuel : nat) (s : string) : string :=
  match fuel with
  | O => s
  | S fuel' =>
      match find (fun ws => endswith s ws) whitespace with
      | Some ws =>
          rstrip_fuel fuel' (take (String.length s - String.length ws) s)
      | None => s
      end
  end.

(** [s.strip()]: every removal shortens the text, so its length is fuel
    enough. *)
Definition strip (s : string) : string :=
  let l := lstrip_fuel (String.length s) s in
  rstrip_fuel (String.length l) l.

(** ASCII letters to lower case.  [str.lower()] maps no other character to
    an ASCII one that occurs in ['png'], ['ico'] or ['svg'], so the lookup
    of line 81 sees the same answer. *)
Definition lower_char (a : ascii) : ascii :=
  let n := nat_of_ascii a in
  if ((65 <=? n) && (n <=? 90))%nat then ascii_of_nat (n + 32) else a.

Fixpoint lower (s : string) : string :=
  match s with
  | EmptyString => EmptyString
  | String a s' => String (lower_char a) (lower s')
  end.

(** [d.get(k, default)] on a dict literal *)
Fixpoint dict_get {V : Type} (d : list (string * V)) (k : string) : option V :=
  match d with
  | [] => None
  | (k', v) :: d' => if (k' =? k)%string then Some v else dict_get d' k
  end.

(** [str(n)] for an integer *)
Definition str_of_Z (z : Z) : string := NilZero.string_of_int (Z.to_int z).

Fixpoint insert_string (x : string) (l : list string) : list string :=
  match l with
  | [] => [x]
  | y :: r => if String.leb x y then x :: y :: r else y :: insert_string x r
  end.

(** [sorted(names)] on strings *)
Definition sorted (l : list string) : list string :=
  fold_right insert_string [] l.

(** ** Icons (lines 75-87) *)

Definition icon_mimes : list (string * string) :=
  [("png", "image/png"); ("ico", "image/x-icon"); ("svg", "image/svg+xml")]%string.

(** The file system as the icons meet it.  Next to the files of the world
    that can be read, a path may exist and still not open: a directory
    ([os.path.join(_HERE, '')] is one), a file the process may not read.
    [unopenable] gives, for such a path, the [OSError] that
    [open(path, 'rb')] raises. *)
Record Disk := {
  disk_world : World;
  unopenable : string -> option exn
}.

(** [os.path.exists(path)] *)
Definition path_exists (d : Disk) (path : string) : bool :=
  match files (disk_world d) path, unopenable d path with
  | None, None => false
  | _, _ => true
  end.

(** [with open(path, 'rb') as f: f.read()] *)
Definition open_rb (d : Disk) (path : string) : res bytes :=
  match files (disk_world d) path with
  | Some content => Ret content
  | None =>
      match unopenable d path with
      | Some e => Raise e
      | None => Raise (OSError "[Errno 2] No such file or directory")
      end
  end.

(** A disk on which everything that exists can be read. *)
Definition plain_disk (w : World) : Disk :=
  {| disk_world := w; unopenable := fun _ => None |}.

(** A disk with one directory next to the files of [w]. *)
Definition disk_with_dir (w : World) (dir : string) : Disk :=
  {| disk_world := w;
     unopenable := fun p =>
       if String.eqb p dir then Some (OSError "[Errno 21] Is a directory")
       else None |}.

(** Lines 75-83; [here] is the directory of the script.  Nothing catches
    what [open] raises. *)
Definition _b64_icon (L : Libs) (here : string) (filename : string) (d : Disk)
  : res string :=
  let path := path_join here filename in
  if negb (path_exists d path) then Ret EmptyString
  else
    let ext := lower (after_last "." filename) in
    let mime :=
      match dict_get icon_mimes ext with
      | Some m => m
      | None => "image/png"%string
      end in
    content <- open_rb d path ;;
    Ret ("data:" ++ mime ++ ";base64," ++ b64encode L content)%string.

(** [a or b] on strings: the empty string is false, and [b] is evaluated
    only then. *)
Definition str_or (a : string) (b : res string) : res string :=
  if (a =? "")%string then b else Ret a.

(** Lines 85-87, each as the outcome of the script up to and including its
    line: an exception of an earlier line leaves the later names
    undefined, the script ends with it. *)
Definition ICON_180 (L : Libs) (here : string) (d : Disk) : res string :=
  _b64_icon L here "icon-180.png" d.
Definition ICON_32 (L : Libs) (here : string) (d : Disk) : res string :=
  _ <- ICON_180 L here d ;;
  _b64_icon L here "icon-32.png" d.
Definition ICON_APPLE (L : Libs) (here : string) (d : Disk) : res string :=
  i180 <- ICON_180 L here d ;;
  _ <- _b64_icon L here "icon-32.png" d ;;
  str_or i180 (_b64_icon L here "icon-192.png" d).

(** ** The recordings (lines 70, 92-128) *)

Definition MAX_SIZE : Z := 6 * 1024 * 1024.

Definition XC_COORDS : list (string * (Q * Q)) :=
  [("XC736923",  (59.33, 18.07)%Q);
   ("XC1077561", (59.33, 18.07)%Q);
   ("XC1077566", (59.33, 18.07)%Q);
   ("XC1077567", (59.33, 18.07)%Q);
   ("XC1078236", (57.70, 11.97)%Q);
   ("XC1079819", (55.60, 13.00)%Q);
   ("XC1079820", (55.60, 13.00)%Q);
   ("XC1080420", (59.85, 17.63)%Q)]%string.

(** One entry of [recordings]. *)
Record recording : Type := {
  r_id : string;
  r_fname_label : string;
  r_mime : string;
  r_size : Z;
  r_audio : string;
  r_lat : option Q;
  r_lon : option Q;
  r_sono : option string
}.

(** Line 105. *)
Definition has_audio_suffix (fname : string) : bool :=
  endswith fname ".wav" || endswith fname ".mp3".

(** Lines 112-115. *)
Definition xc_id_of (fname : string) : string := before_char " " fname.

Definition fname_label_of (fname : string) : string :=
  let base_no_ext := fst (splitext fname) in
  match split1 " - " base_no_ext with
  | _ :: p1 :: _ => strip p1
  | _ => base_no_ext
  end.

(** Lines 112-124, once the content and the sonogram are known. *)
Definition make_recording (L : Libs) (fname : string) (content : bytes)
    (sono : option string) : recording :=
  let xc_id := xc_id_of fname in
  let coords := dict_get XC_COORDS xc_id in
  {| r_id := xc_id;
     r_fname_label := fname_label_of fname;
     r_mime := if endswith fname ".wav" then "audio/wav" else "audio/mpeg";
     r_size := len content;
     r_audio := b64encode L content;
     r_lat := option_map fst coords;
     r_lon := option_map snd coords;
     r_sono := sono |}.

(** Line 125: an absent or empty sonogram prints as "(no sono)". *)
Definition sono_kb (sono : option string) : string :=
  match sono with
  | Some s =>
      if (s =? "")%string then "  (no sono)"%string
      else ("  +" ++ str_of_Z (Z.of_nat (String.length s) / 1024) ++ "KB sono")%string
  | None => "  (no sono)"%string
  end.

(** Lines 104-126 on the sorted names: the entries so far are [acc]; an
    exception of [os.path.getsize] or of [make_sono] ends the loop and the
    script. *)
Fixpoint collect_from (L : Libs) (audio_dir : string) (names : list string)
    (acc : list recording) (w : World) : res (list recording) * World :=
  match names with
  | [] => (Ret acc, w)
  | fname :: rest =>
      if negb (has_audio_suffix fname) then collect_from L audio_dir rest acc w
      else
        let path := path_join audio_dir fname in
        match files w path with
        | None => (Raise (OSError "No such file or directory"), w)
        | Some content =>
            let size := len content in
            if MAX_SIZE <? size then
              collect_from L audio_dir rest acc
                (print ("  ↩ skip  " ++ fname ++ "  (" ++ str_of_Z (size / 1024)
                        ++ "KB)") w)
            else
              match make_sono L path w with
              | (Raise e, w1) => (Raise e, w1)
              | (Ret sono, w1) =>
                  collect_from L audio_dir rest
                    (acc ++ [make_recording L fname content sono])
                    (print ("  ✓ " ++ xc_id_of fname ++ "  "
                            ++ str_of_Z (size / 1024) ++ "KB" ++ sono_kb sono) w1)
              end
        end
  end.

(** Lines 103-126: [listing] is what [os.listdir(AUDIO_DIR)] returns. *)
Definition collect_recordings (L : Libs) (audio_dir : string)
    (listing : list string) (w : World) : res (list recording) * World :=
  collect_from L audio_dir (sorted listing) [] w.

(** A file the loop embeds: it has an audio suffix and at most [MAX_SIZE]
    bytes. *)
Definition eligible (audio_dir : string) (w : World) (fname : string) : bool :=
  has_audio_suffix fname &&
  match files w (path_join audio_dir fname) with
  | Some content => len content <=? MAX_SIZE
  | None => false
  end.

(** What the loop appends for one file, seen from the world at the start
    of the loop. *)
Definition recording_of (L : Libs) (audio_dir : string) (w : World)
    (fname : string) : res recording :=
  let path := path_join audio_dir fname in
  match files w path with
  | Some content =>
      match fst (make_sono L path w) with
      | Ret sono => Ret (make_recording L fname content sono)
      | Raise e => Raise e
      end
  | None => Raise (OSError "No such file or directory")
  end.

Definition string_le (a b : string) : Prop := String.leb a b = true.

(** [c in s] for one character *)
Fixpoint contains_char (c : ascii) (s : string) : bool :=
  match s with
  | EmptyString => false
  | String a s' => Ascii.eqb a c || contains_char c s'
  end.

(** No white space at either end: [strip] has nothing to remove. *)
Definition is_trimmed (s : string) : bool :=
  match find (fun ws => prefix ws s) whitespace,
        find (fun ws => endswith s ws) whitespace with
  | None, None => true
  | _, _ => false
  end.

(** * The page script (the JavaScript of the template)

    ** Filter chips (lines 1709, 1728-1738)

    A [Set] of strings is the list of its elements in insertion order. *)

Definition set_has (x : string) (s : list string) : bool :=
  existsb (String.eqb x) s.

Definition set_add (x : string) (s : list string) : list string :=
  if set_has x s then s else (s ++ [x])%list.

Definition set_delete (x : string) (s : list string) : list string :=
  filter (fun y => negb (y =? x)%string) s.

(** [let activeFilters = new Set(['all'])] *)
Definition activeFilters_init : list string := ["all"%string].

(** The click handler of a chip whose [data-fid] is [fid]. *)
Definition filter_chip_click (fid : string) (activeFilters : list string)
  : list string :=
  if (fid =? "all")%string then ["all"%string]
  else
    let s := set_delete "all" activeFilters in
    let s := if set_has fid s then set_delete fid s else set_add fid s in
    if Nat.eqb (length s) 0 then set_add "all" s else s.

(** A sequence of clicks, first to last. *)
Definition filter_chip_clicks (fids : list string) (activeFilters : list string)
  : list string :=
  fold_left (fun s fid => filter_chip_click fid s) fids activeFilters.

(** ** Row order (lines 1776-1781, 1842-1853)

    Rows are values of any type [item] with an [id]. *)

(** [a[i]]: [undefined] ([None]) outside the array. *)
Definition js_get {A : Type} (a : list A) (i : Z) : option A :=
  if i <? 0 then None else nth_error a (Z.to_nat i).

(** [a.findIndex(p)]: the first index that satisfies [p], or [-1]. *)
Fixpoint findIndex_from {A : Type} (p : A -> bool) (a : list A) (i : Z) : Z :=
  match a with
  | [] => -1
  | x :: r => if p x then i else findIndex_from p r (i + 1)
  end.

Definition findIndex {A : Type} (p : A -> bool) (a : list A) : Z :=
  findIndex_from p a 0.

(** The index at which [a.splice(start, ...)] acts: a negative [start]
    counts from the end, and the result is kept within the array. *)
Definition splice_start (start : Z) (n : nat) : nat :=
  if start <? 0 then Z.to_nat (Z.max (Z.of_nat n + start) 0)
  else Nat.min (Z.to_nat start) n.

(** [const [moved] = a.splice(start, 1)]: the removed element, if there is
    one at that index, and the array left. *)
Definition splice_remove1 {A : Type} (start : Z) (a : list A)
  : option A * list A :=
  let i := splice_start start (length a) in
  (nth_error a i, (firstn i a ++ skipn (S i) a)%list).

(** [a.splice(start, 0, x)] *)
Definition splice_insert {A : Type} (start : Z) (x : A) (a : list A) : list A :=
  let i := splice_start start (length a) in
  (firstn i a ++ x :: skipn i a)%list.

(** Lines 1842-1851: what [saveCustomOrder] is given, or [None] when a
    [TypeError] is thrown (a row index outside [filteredItems], or nothing
    to move). *)
Definition performDrop {item : Type} (id : item -> string)
    (all filteredItems : list item) (fromIdx toIdx : Z)
  : option (list string) :=
  match js_get filteredItems fromIdx, js_get filteredItems toIdx with
  | Some from, Some to =>
      let fromId := id from in
      let toId := id to in
      let fromAllIdx := findIndex (fun x => (id x =? fromId)%string) all in
      let '(moved, all1) := splice_remove1 fromAllIdx all in
      let toAllIdx := findIndex (fun x => (id x =? toId)%string) all1 in
      match moved with
      | Some m => Some (map id (splice_insert toAllIdx m all1))
      | None => None
      end
  | _, _ => None
  end.

(** The property names every object inherits from [Object.prototype]. *)
Definition object_prototype_keys : list string :=
  ["constructor"; "__defineGetter__"; "__defineSetter__"; "hasOwnProperty";
   "__lookupGetter__"; "__lookupSetter__"; "isPrototypeOf";
   "propertyIsEnumerable"; "toString"; "valueOf"; "__proto__";
   "toLocaleString"]%string.

(** The last index of [k] in [order], counting from [i]. *)
Fixpoint last_index_from (k : string) (order : list string) (i : Z) : option Z :=
  match order with
  | [] => None
  | x :: r =>
      match last_index_from k r (i + 1) with
      | Some j => Some j
      | None => if (x =? k)%string then Some i else None
      end
  end.

(** [pos[k] ?? 9999] after [order.forEach((id,i)=>pos[id]=i)] on [pos={}]:
    the last index of [k] in [order]; 9999 when [k] is not in [order]; and
    no number ([None]) when [k] then names an inherited property, or is
    ["__proto__"], which an assignment does not define. *)
Definition pos_or_9999 (order : list string) (k : string) : option Z :=
  match (if (k =? "__proto__")%string then None else last_index_from k order 0) with
  | Some i => Some i
  | None => if set_has k object_prototype_keys then None else Some 9999
  end.

Fixpoint insert_by_key {A : Type} (key : A -> Z) (x : A) (l : list A) : list A :=
  match l with
  | [] => [x]
  | y :: r => if key x <=? key y then x :: y :: r else y :: insert_by_key key x r
  end.

(** [[...a].sort((x,y) => key(x) - key(y))]: the sort is stable. *)
Definition sort_by_key {A : Type} (key : A -> Z) (a : list A) : list A :=
  fold_right (insert_by_key key) [] a.

Definition key_or_0 (k : option Z) : Z :=
  match k with
  | Some z => z
  | None => 0
  end.

(** Lines 1776-1781, [order] being what [getCustomOrder()] returns.  When
    the key of some row is not a number the comparator yields [NaN], it is
    no consistent comparator any more, and the order of the array that
    [sort] returns is the engine's choice: this is the answer [None], an
    array that the model does not determine, not an absent result. *)
Definition applyCustomOrder {item : Type} (id : item -> string)
    (order : list string) (items : list item) : option (list item) :=
  if Nat.eqb (length order) 0 then Some items
  else if forallb (fun x => match pos_or_9999 order (id x) with
                            | Some _ => true
                            | None => false
                            end) items
       then Some (sort_by_key (fun x => key_or_0 (pos_or_9999 order (id x))) items)
       else None.

(** * Properties *)

(** Side conditions [Forall (representable dt) [z1; ...]] on literals. *)
Ltac solve_representable :=
  repeat (apply Forall_cons;
          [unfold representable; eexists; split; [reflexivity | simpl; lia] |]);
  apply Forall_nil.


(** ** Resampling (lines 39-42) *)

Lemma stride_from_length {A : Type} (step : nat) (l : list A) :
  forall skip, (length (stride_from step skip l) <= length l)%nat.
Proof.
  induction l as [|x r IH]; intros skip; simpl.
  - lia.
  - destruct skip as [|s].
    + simpl. specialize (IH (step - 1)%nat). lia.
    + specialize (IH s). lia.
Qed.

Lemma resample_length {A : Type} (data : list A) (sr : Z) :
  len (fst (resample data sr)) <= len data.
Proof.
  unfold resample, len.
  destruct (22050 <? sr); simpl.
  - unfold stride. pose proof (stride_from_length (Z.to_nat (sr / 22050)) data 0%nat). lia.
  - lia.
Qed.

Lemma resample_rate_low {A : Type} (data : list A) (sr : Z) :
  sr <= 22050 -> resample data sr = (data, sr).
Proof.
  intros H. unfold resample.
  destruct (22050 <? sr) eqn:E; [apply Z.ltb_lt in E; lia | reflexivity].
Qed.

(** The rate after decimation, in closed form: the remainder of the
    division by 22050 is spread over the step. *)
Lemma resample_rate_high {A : Type} (data : list A) (sr : Z) :
  22050 < sr ->
  snd (resample data sr) = 22050 + (sr mod 22050) / (sr / 22050).
Proof.
  intros H. unfold resample.
  destruct (22050 <? sr) eqn:E; [| apply Z.ltb_ge in E; lia].
  simpl.
  assert (Hq : 1 <= sr / 22050) by (apply Z.div_le_lower_bound; lia).
  pose proof (Z.div_mod sr 22050 ltac:(lia)) as Hdm.
  remember (sr / 22050) as q eqn:Eq.
  remember (sr mod 22050) as r eqn:Er.
  replace (sr / q) with ((22050 * q + r) / q) by (f_equal; lia).
  apply Z.div_add_l. lia.
Qed.

(** Decimation brings every rate below twice the ceiling, not below the
    ceiling. *)
Lemma resample_rate_below_double {A : Type} (data : list A) (sr : Z) :
  snd (resample data sr) < 44100.
Proof.
  destruct (Z_le_gt_dec sr 22050) as [Hle | Hgt].
  - rewrite resample_rate_low by exact Hle. simpl. lia.
  - rewrite resample_rate_high by lia.
    assert (Hq : 1 <= sr / 22050) by (apply Z.div_le_lower_bound; lia).
    pose proof (Z.mod_pos_bound sr 22050 ltac:(lia)) as Hm.
    assert ((sr mod 22050) / (sr / 22050) <= sr mod 22050).
    { apply Z.div_le_upper_bound; nia. }
    lia.
Qed.

(** C2, at 48 kHz: the decimation step is 2 and the rate used downstream
    is 24000 Hz, above the 22050 Hz the comment of line 38 announces. *)
Theorem resample_48000_above_ceiling :
  forall (A : Type) (data : list A),
    snd (resample data 48000) = 24000 /\ 22050 < snd (resample data 48000).
Proof.
  intros A data.
  assert (E : snd (resample data 48000) = 24000) by reflexivity.
  rewrite E. split; [reflexivity | lia].
Qed.

(** ** Segment parameters (lines 44-45) *)

Lemma nperseg_short (n : Z) : 0 <= n < 8 -> nperseg_of n = 0.
Proof.
  intros H. unfold nperseg_of.
  rewrite (Z.div_small n 8) by lia. reflexivity.
Qed.

Lemma nperseg_range (n : Z) : 8 <= n -> 1 <= nperseg_of n <= 512 /\ nperseg_of n <= n.
Proof.
  intros H. unfold nperseg_of.
  assert (1 <= n / 8) by (apply Z.div_le_lower_bound; lia).
  assert (n / 8 <= n) by (apply Z.div_le_upper_bound; lia).
  lia.
Qed.

Lemma noverlap_range (k : Z) : 1 <= k -> 0 <= noverlap_of k < k.
Proof.
  intros H. unfold noverlap_of. split.
  - apply Z.div_pos; lia.
  - apply Z.div_lt_upper_bound; lia.
Qed.

Lemma spectrogram_accepts (L : Libs) (data : list R) (sr : Z) :
  8 <= len data ->
  spectrogram L data sr (nperseg_of (len data))
              (noverlap_of (nperseg_of (len data))) 1024
  = Ret (stft L data sr (nperseg_of (len data))
              (noverlap_of (nperseg_of (len data))) 1024).
Proof.
  intros H.
  destruct (nperseg_range (len data) H) as [[H1 H2] H3].
  pose proof (noverlap_range _ H1) as H4.
  unfold spectrogram.
  replace (len data <? nperseg_of (len data)) with false
    by (symmetry; apply Z.ltb_ge; lia).
  replace (len data =? 0) with false by (symmetry; apply Z.eqb_neq; lia).
  replace (nperseg_of (len data) <? 1) with false
    by (symmetry; apply Z.ltb_ge; lia).
  replace (1024 <? nperseg_of (len data)) with false
    by (symmetry; apply Z.ltb_ge; lia).
  replace (nperseg_of (len data) <=? noverlap_of (nperseg_of (len data)))
    with false by (symmetry; apply Z.leb_gt; lia).
  reflexivity.
Qed.

(** C10: with at least 8 samples the segment length is between 1 and the
    number of samples, the overlap is below the segment length, and
    [spectrogram] accepts its arguments: it returns the transform of the
    data with exactly these parameters. *)
Theorem stft_parameters_well_formed :
  forall (L : Libs) (data : list R) (sr : Z),
    8 <= len data ->
    let nperseg := nperseg_of (len data) in
    let noverlap := noverlap_of nperseg in
    1 <= nperseg <= len data /\
    0 <= noverlap < nperseg /\
    spectrogram L data sr nperseg noverlap 1024
    = Ret (stft L data sr nperseg noverlap 1024).
Proof.
  intros L data sr H nperseg noverlap.
  destruct (nperseg_range (len data) H) as [[H1 H2] H3].
  pose proof (noverlap_range nperseg H1) as H4.
  fold nperseg in H1, H2, H3.
  fold noverlap in H4.
  repeat split; try lia.
  apply spectrogram_accepts. exact H.
Qed.

Lemma stft_parameters_well_formed_witness :
  8 <= len [0; 0; 0; 0; 0; 0; 0; 0]%R /\
  spectrogram (fixture no_soundfile not_a_wav silent_spec (Ret png_stub))
    [0; 0; 0; 0; 0; 0; 0; 0]%R 22050 1 0 1024
  = Ret silent_spec.
Proof.
  split; [vm_compute; discriminate |].
  apply (stft_parameters_well_formed
           (fixture no_soundfile not_a_wav silent_spec (Ret png_stub))
           [0; 0; 0; 0; 0; 0; 0; 0]%R 22050).
  vm_compute; discriminate.
Defined.

(** ** The dB transform (line 47) *)

Lemma ln10_pos : (0 < ln 10)%R.
Proof. rewrite <- ln_1. apply ln_increasing; lra. Qed.

Lemma log10_le (x y : R) : (0 < x)%R -> (x <= y)%R -> (log10 x <= log10 y)%R.
Proof.
  intros Hx Hxy. unfold log10.
  apply Rmult_le_compat_r.
  - left. apply Rinv_0_lt_compat, ln10_pos.
  - destruct Hxy as [Hlt | ->].
    + left. apply ln_increasing; assumption.
    + right. reflexivity.
Qed.

Lemma floored_pos (p : R) : (0 < Rmax p 1e-10)%R.
Proof. apply Rlt_le_trans with 1e-10%R; [lra | apply Rmax_r]. Qed.

(** C8: the dB transform is monotone non-decreasing in the power. *)
Theorem dB_monotone :
  forall p1 p2 : R, (p1 <= p2)%R -> (dB p1 <= dB p2)%R.
Proof.
  intros p1 p2 H. unfold dB.
  apply Rmult_le_compat_l; [lra |].
  apply log10_le.
  - apply floored_pos.
  - apply Rle_max_compat_r. exact H.
Qed.

Lemma dB_monotone_witness : (0 <= 1)%R /\ (dB 0 <= dB 1)%R.
Proof.
  split; [lra | apply (dB_monotone 0 1); lra].
Defined.

(** ** Decoding (lines 21-36) *)

(** C5: when the sound-file reader and the WAV fallback both raise,
    [make_sono] returns [None]; nothing is raised, and one warning line is
    printed. *)
Theorem decode_failure_returns_None :
  forall (L : Libs) (path : string) (w : World) (e1 e2 : exn),
    sf_strategy L (files w path) = Raise e1 ->
    wav_strategy L (files w path) = Raise e2 ->
    make_sono L path w = (Ret None, print (skip_message e2) w).
Proof.
  intros L path w e1 e2 H1 H2.
  unfold make_sono, decode, try_except.
  rewrite H1, H2. reflexivity.
Qed.

Lemma decode_failure_returns_None_witness :
  fst (make_sono
         (fixture no_soundfile not_a_wav silent_spec (Ret png_stub))
         "garbage.wav"
         (world_with "garbage.wav" [Byte.x61; Byte.x62; Byte.x63] 0 0))
  = Ret None.
Proof.
  rewrite (decode_failure_returns_None _ _ _
             (ImportError "No module named 'soundfile'")
             (ValueError "File format b'abc' not understood."));
    reflexivity.
Defined.


(** ** Short inputs (lines 44-48) *)

(** Nothing after the decoding is guarded: with fewer than 8 samples the
    segment length is 0 and [spectrogram] refuses it; with no sample at all
    the percentile of an empty matrix fails.  Either way an exception
    leaves [render_sono]. *)
Lemma render_sono_short (L : Libs) (data : list R) (sr : Z) :
  len data < 8 -> exists e, render_sono L data sr = Raise e.
Proof.
  intros H. unfold render_sono.
  pose proof (resample_length data sr) as Hl.
  destruct (resample data sr) as [d s]. simpl in Hl.
  assert (H0 : 0 <= len d) by (unfold len; lia).
  rewrite nperseg_short by lia.
  unfold spectrogram.
  replace (len d <? 0) with false by (symmetry; apply Z.ltb_ge; lia).
  destruct (len d =? 0); simpl; eexists; reflexivity.
Qed.

(** With 1 to 7 samples the exception is the [ValueError] of
    [spectrogram]. *)
Lemma render_sono_short_ValueError (L : Libs) (data : list R) (sr : Z) :
  sr <= 22050 -> 1 <= len data < 8 ->
  render_sono L data sr = Raise (ValueError "nperseg must be a positive integer").
Proof.
  intros Hs H. unfold render_sono.
  rewrite resample_rate_low by exact Hs.
  rewrite nperseg_short by lia.
  unfold spectrogram.
  replace (len data <? 0) with false by (symmetry; apply Z.ltb_ge; lia).
  replace (len data =? 0) with false by (symmetry; apply Z.eqb_neq; lia).
  reflexivity.
Qed.

(** After a successful decoding the call never returns [None]: it returns
    a picture or raises. *)
Lemma render_sono_not_None (L : Libs) (data : list R) (sr : Z) :
  render_sono L data sr <> Ret None.
Proof.
  unfold render_sono.
  destruct (resample data sr) as [d s].
  destruct (spectrogram L d s _ _ _) as [[[f t] Sxx] | e]; simpl; [| discriminate].
  destruct (bool_index (freq_mask f) Sxx) as [rows | e]; simpl; [| discriminate].
  destruct (clip_bounds (to_dB rows)) as [[vmin vmax] | e]; simpl; [| discriminate].
  destruct (bool_index (freq_mask f) f) as [fm | e]; simpl; [| discriminate].
  destruct (savefig L t _ _ vmin vmax) as [png | e]; simpl; discriminate.
Qed.

(** X1: [make_sono] returns [None] exactly when the decoding failed: once
    the samples are there it returns a picture or raises. *)
Lemma make_sono_None_iff (L : Libs) (path : string) (w : World) :
  fst (make_sono L path w) = Ret None <->
  exists e, decode L (files w path) = Raise e.
Proof.
  unfold make_sono.
  destruct (decode L (files w path)) as [[data sr] | e]; simpl; split.
  - intros H. exfalso. exact (render_sono_not_None L data sr H).
  - intros [e H]. discriminate.
  - intros _. exists e. reflexivity.
  - reflexivity.
Qed.

(** C1, as the code behaves: when the decoded input has fewer than 8
    samples, [make_sono] does not return [None]: an exception propagates to
    the caller. *)
Theorem short_input_raises :
  forall (L : Libs) (path : string) (w : World) (data : list R) (sr : Z),
    decode L (files w path) = Ret (data, sr) ->
    len data < 8 ->
    (exists e, fst (make_sono L path w) = Raise e) /\
    fst (make_sono L path w) <> Ret None.
Proof.
  intros L path w data sr Hd Hn.
  unfold make_sono. rewrite Hd. simpl.
  destruct (render_sono_short L data sr Hn) as [e He].
  rewrite He. split; [exists e; reflexivity | discriminate].
Qed.

Lemma short_input_raises_witness :
  fst (make_sono
         (fixture (Ret ([[0]; [0]; [0]; [0]]%R, 22050)) not_a_wav
                  silent_spec (Ret png_stub))
         "short.wav" (world_with "short.wav" [] 0 0))
  <> Ret None.
Proof.
  apply (short_input_raises _ _ _ (mean_axis1 [[0]; [0]; [0]; [0]]%R) 22050).
  - reflexivity.
  - vm_compute. reflexivity.
Defined.

(** ** The frequency mask (lines 46-47) *)

Lemma freq_mask_length (f : list R) : length (freq_mask f) = length f.
Proof. unfold freq_mask. apply length_map. Qed.

Lemma bool_index_same_length {A : Type} (m : list bool) (a : list A) :
  length m = length a -> bool_index m a = Ret (compress m a).
Proof.
  intros H. unfold bool_index. rewrite H, Nat.eqb_refl. reflexivity.
Qed.

Lemma Rle_bool_true (x y : R) : Rle_bool x y = true <-> (x <= y)%R.
Proof.
  unfold Rle_bool. destruct (Rle_dec x y); split; intros; try assumption;
    try reflexivity; try discriminate; contradiction.
Qed.

Lemma Rlt_bool_true (x y : R) : Rlt_bool x y = true <-> (x < y)%R.
Proof.
  unfold Rlt_bool. destruct (Rlt_dec x y); split; intros; try assumption;
    try reflexivity; try discriminate; contradiction.
Qed.

Lemma Rlt_bool_false (x y : R) : Rlt_bool x y = false <-> (y <= x)%R.
Proof.
  unfold Rlt_bool. destruct (Rlt_dec x y); split; intros; try reflexivity;
    try discriminate; lra.
Qed.

(** Selecting frequencies and rows by the mask is filtering the
    (frequency, row) pairs on the frequency. *)
Lemma compress_mask_combine {A : Type} (f : list R) :
  forall rows : list A,
    length f = length rows ->
    combine (compress (freq_mask f) f) (compress (freq_mask f) rows)
    = filter (fun p => Rle_bool (fst p) 8000) (combine f rows).
Proof.
  induction f as [|x f IH]; intros [|r rows] H; simpl in *; try discriminate.
  - reflexivity.
  - injection H as H.
    destruct (Rle_bool x 8000); simpl; rewrite IH by exact H; reflexivity.
Qed.

Lemma compress_mask_bound (f : list R) :
  Forall (fun x => (x <= 8000)%R) (compress (freq_mask f) f).
Proof.
  induction f as [|x f IH]; simpl.
  - constructor.
  - destruct (Rle_bool x 8000) eqn:E.
    + constructor; [apply Rle_bool_true; exact E | exact IH].
    + exact IH.
Qed.

(** ** The WAV fallback (lines 29-33) *)

Lemma fold_Rmax_ge_init (r : list R) :
  forall x, (x <= fold_left Rmax r x)%R.
Proof.
  induction r as [|y r IH]; intros x; simpl.
  - lra.
  - apply Rle_trans with (Rmax x y); [apply Rmax_l | apply IH].
Qed.

Lemma fold_Rmax_ge_elem (r : list R) :
  forall x y, In y r -> (y <= fold_left Rmax r x)%R.
Proof.
  induction r as [|z r IH]; intros x y Hin; simpl in *.
  - contradiction.
  - destruct Hin as [-> | Hin].
    + apply Rle_trans with (Rmax x y); [apply Rmax_r | apply fold_Rmax_ge_init].
    + apply IH. exact Hin.
Qed.

Lemma fold_Rmax_le (b : R) (r : list R) :
  forall x, (x <= b)%R -> Forall (fun y => (y <= b)%R) r ->
            (fold_left Rmax r x <= b)%R.
Proof.
  induction r as [|y r IH]; intros x Hx Hr; simpl.
  - exact Hx.
  - inversion Hr; subst. apply IH; [apply Rmax_lub; assumption | assumption].
Qed.

(** [data.max() > 1.0] is true exactly when some sample is above 1. *)
Lemma np_max_above_1 (v : list R) (m : R) :
  np_max v = Ret m -> (Rlt_bool 1 m = true <-> Exists (fun x => (1 < x)%R) v).
Proof.
  destruct v as [|x r]; simpl; intros H; [discriminate |].
  injection H as <-. rewrite Rlt_bool_true. split.
  - intros Hm. apply Exists_exists.
    destruct (Rlt_dec 1 x) as [Hx | Hx]; [exists x; split; [left; reflexivity | exact Hx] |].
    assert (Hr : ~ Forall (fun y => (y <= 1)%R) r).
    { intros Hall. pose proof (fold_Rmax_le 1 r x ltac:(lra) Hall). lra. }
    apply neg_Forall_Exists_neg in Hr.
    + apply Exists_exists in Hr. destruct Hr as [y [Hy Hny]].
      exists y. split; [right; exact Hy | lra].
    + intros y. destruct (Rle_dec y 1); [left | right]; assumption.
  - intros Hex. apply Exists_exists in Hex. destruct Hex as [y [[-> | Hy] H1]].
    + apply Rlt_le_trans with y; [exact H1 | apply fold_Rmax_ge_init].
    + apply Rlt_le_trans with y; [exact H1 | apply fold_Rmax_ge_elem; exact Hy].
Qed.

(** One channel, no sample above 1: the samples are passed on as they
    are, whatever the dtype. *)
Lemma wav_normalize_mono_quiet (dt : dtype) (v : list R) :
  v <> [] -> Forall (fun x => (x <= 1)%R) v ->
  wav_normalize (Arr1 dt v) = Ret v.
Proof.
  intros Hne Hall. unfold wav_normalize. simpl.
  destruct v as [|x r]; [contradiction |]. simpl.
  inversion Hall; subst.
  replace (Rlt_bool 1 (fold_left Rmax r x)) with false; [reflexivity |].
  symmetry. apply Rlt_bool_false. apply fold_Rmax_le; assumption.
Qed.

(** One channel, some sample above 1: every sample is divided by the
    largest value of the dtype; a floating-point dtype has none and the
    fallback fails. *)
Lemma wav_normalize_mono_loud (dt : dtype) (v : list R) :
  Exists (fun x => (1 < x)%R) v ->
  wav_normalize (Arr1 dt v)
  = (hi <- iinfo_max dt ;; Ret (map (fun x => (x / IZR hi)%R) v)).
Proof.
  intros Hex. unfold wav_normalize. simpl.
  destruct (np_max v) as [m | e] eqn:Em.
  - simpl. replace (Rlt_bool 1 m) with true; [reflexivity |].
    symmetry. apply (np_max_above_1 v m Em). exact Hex.
  - destruct v; [inversion Hex | discriminate].
Qed.

(** Several channels of integer samples, some average above 1: after the
    averaging [raw] is a float array, [np.iinfo] raises, and the fallback
    ends in the handler of line 34. *)
Lemma wav_normalize_multichannel_loud (dt : dtype) (rows : list (list R)) :
  is_integer_dtype dt = true ->
  Exists (fun x => (1 < x)%R) (mean_axis1 rows) ->
  exists e, wav_normalize (Arr2 dt rows) = Raise e.
Proof.
  intros Hdt Hex. unfold wav_normalize. simpl.
  destruct (np_max (mean_axis1 rows)) as [m | e] eqn:Em.
  - simpl. replace (Rlt_bool 1 m) with true.
    + destruct dt; try discriminate; simpl; eexists; reflexivity.
    + symmetry. apply (np_max_above_1 _ m Em). exact Hex.
  - simpl. eexists; reflexivity.
Qed.

(** C3, as stated, fails: two 16-bit samples, -32768 and 0, have maximum 0,
    are not divided, and -32768 is outside [-1, 1]. *)
Lemma wav_int16_not_normalized :
  ~ (forall (dt : dtype) (zs : list Z),
       zs <> [] ->
       Forall (representable dt) zs ->
       exists data,
         wav_normalize (Arr1 dt (map IZR zs)) = Ret data /\
         Forall (fun s => (-1 <= s <= 1)%R) data).
Proof.
  intros H.
  destruct (H Int16 [-32768; 0]) as [data [Hd Hr]].
  - discriminate.
  - solve_representable.
  - rewrite wav_normalize_mono_quiet in Hd.
    + injection Hd as <-. inversion Hr; subst. lra.
    + discriminate.
    + simpl. repeat constructor; lra.
Qed.

Lemma iinfo_max_pos (dt : dtype) (hi : Z) : iinfo_max dt = Ret hi -> 0 < hi.
Proof. destruct dt; simpl; intros H; try discriminate; injection H as <-; lia. Qed.

Lemma scaled_sample_range (lo hi z : Z) :
  0 < hi -> lo <= z <= hi ->
  (IZR lo / IZR hi <= IZR z / IZR hi <= 1)%R.
Proof.
  intros Hhi [Hlo Hz].
  assert (Hp : (0 < IZR hi)%R) by (apply IZR_lt; exact Hhi).
  apply IZR_le in Hlo. apply IZR_le in Hz.
  split.
  - apply Rmult_le_compat_r; [left; apply Rinv_0_lt_compat; exact Hp | exact Hlo].
  - apply Rmult_le_reg_r with (IZR hi); [exact Hp |].
    unfold Rdiv. rewrite Rmult_assoc, Rinv_l by lra. lra.
Qed.

(** C3, amended: for one channel of integer samples, if some sample is
    above 1 every sample is divided by the largest value of the integer
    type, and the results lie between min/max of the type and 1 (within
    [-1, 1] when no sample is below -max); if no sample is above 1 the
    samples are passed on undivided. *)
Theorem wav_normalize_int_pcm :
  forall (dt : dtype) (hi : Z) (zs : list Z),
    iinfo_max dt = Ret hi ->
    zs <> [] ->
    Forall (representable dt) zs ->
    (Exists (fun z => 1 < z) zs ->
       wav_normalize (Arr1 dt (map IZR zs))
       = Ret (map (fun z => (IZR z / IZR hi)%R) zs) /\
       Forall (fun s => (IZR (iinfo_min dt) / IZR hi <= s <= 1)%R)
              (map (fun z => (IZR z / IZR hi)%R) zs) /\
       (Forall (fun z => - hi <= z) zs ->
        Forall (fun s => (-1 <= s <= 1)%R)
               (map (fun z => (IZR z / IZR hi)%R) zs))) /\
    (Forall (fun z => z <= 1) zs ->
       wav_normalize (Arr1 dt (map IZR zs)) = Ret (map IZR zs)).
Proof.
  intros dt hi zs Hhi Hne Hrep.
  pose proof (iinfo_max_pos dt hi Hhi) as Hpos.
  split.
  - intros Hex. split; [| split].
    + rewrite wav_normalize_mono_loud.
      * rewrite Hhi. simpl. rewrite map_map. reflexivity.
      * apply Exists_exists in Hex. destruct Hex as [z [Hin Hz]].
        apply Exists_exists. exists (IZR z).
        split; [apply in_map; exact Hin | apply IZR_lt; exact Hz].
    + apply Forall_map. apply Forall_impl with (2 := Hrep).
      intros z [hi' [Hhi' Hr]].
      rewrite Hhi in Hhi'. injection Hhi' as <-.
      apply scaled_sample_range; assumption.
    + intros Hlow. apply Forall_map.
      rewrite Forall_forall in *. intros z Hin.
      destruct (Hrep z Hin) as [hi' [Hhi' Hr]].
      rewrite Hhi in Hhi'. injection Hhi' as <-.
      specialize (Hlow z Hin).
      destruct (scaled_sample_range (- hi) hi z Hpos ltac:(lia)) as [Ha Hb].
      split; [| exact Hb].
      replace (-1)%R with (IZR (- hi) / IZR hi)%R; [exact Ha |].
      rewrite opp_IZR. field. apply IZR_lt in Hpos. lra.
  - intros Hq. apply wav_normalize_mono_quiet.
    + destruct zs; [contradiction | discriminate].
    + apply Forall_map. apply Forall_impl with (2 := Hq).
      intros z Hz. apply IZR_le in Hz. exact Hz.
Qed.

Lemma wav_normalize_int_pcm_witness :
  wav_normalize (Arr1 Int16 (map IZR [-32768; 0; 32767]))
  = Ret (map (fun z => (IZR z / IZR 32767)%R) [-32768; 0; 32767]).
Proof.
  apply (wav_normalize_int_pcm Int16 32767 [-32768; 0; 32767]).
  - reflexivity.
  - discriminate.
  - solve_representable.
  - right; right; left. lia.
Defined.

(** ** Sorting and percentiles (line 48) *)

Lemma insert_sorted_perm (x : R) (l : list R) :
  Permutation (x :: l) (insert_sorted x l).
Proof.
  induction l as [|y r IH]; simpl.
  - apply Permutation_refl.
  - destruct (Rle_dec x y).
    + apply Permutation_refl.
    + apply perm_trans with (y :: x :: r); [apply perm_swap | apply perm_skip, IH].
Qed.

Lemma sortR_perm (l : list R) : Permutation l (sortR l).
Proof.
  induction l as [|x r IH]; simpl.
  - apply perm_nil.
  - apply perm_trans with (x :: sortR r);
      [apply perm_skip, IH | apply insert_sorted_perm].
Qed.

Lemma sortR_length (l : list R) : length (sortR l) = length l.
Proof. symmetry. apply Permutation_length, sortR_perm. Qed.

Lemma insert_sorted_ok (x : R) (l : list R) :
  StronglySorted Rle l -> StronglySorted Rle (insert_sorted x l).
Proof.
  induction 1 as [|y r Hs IH Hy]; simpl.
  - repeat constructor.
  - destruct (Rle_dec x y) as [Hxy | Hxy].
    + constructor; [constructor; assumption |].
      constructor; [exact Hxy |].
      apply Forall_impl with (2 := Hy). intros z Hz. lra.
    + constructor; [exact IH |].
      apply Permutation_Forall with (x :: r); [apply insert_sorted_perm |].
      constructor; [lra | exact Hy].
Qed.

Lemma sortR_sorted (l : list R) : StronglySorted Rle (sortR l).
Proof.
  induction l as [|x r IH]; simpl; [constructor | apply insert_sorted_ok, IH].
Qed.

Lemma sorted_nth_le (s : list R) :
  StronglySorted Rle s ->
  forall i j, (i <= j < length s)%nat -> (nth i s 0 <= nth j s 0)%R.
Proof.
  induction 1 as [|x r Hs IH Hx]; intros i j Hij; simpl in *.
  - lia.
  - destruct i as [|i], j as [|j]; try lia.
    + lra.
    + rewrite Forall_forall in Hx. apply Hx. apply nth_In. lia.
    + apply IH. lia.
Qed.

(** The integer and fractional parts of the index. *)
Lemma index_parts (n : nat) (q : Z) :
  (1 <= n)%nat -> 0 <= q <= 100 ->
  let k := Z.of_nat (n - 1) * q in
  (Z.to_nat (k / 100) <= n - 1)%nat /\ 0 <= k mod 100 < 100.
Proof.
  intros Hn Hq k. split.
  - assert (0 <= k / 100 <= Z.of_nat (n - 1)).
    { split; [apply Z.div_pos; unfold k; nia |].
      apply Z.div_le_upper_bound; unfold k; nia. }
    lia.
  - apply Z.mod_pos_bound. lia.
Qed.

Lemma interpolate_between (s : list R) (k : Z) :
  StronglySorted Rle s ->
  (Z.to_nat (k / 100) <= length s - 1)%nat -> (1 <= length s)%nat ->
  let lo := Z.to_nat (k / 100) in
  let hi := Nat.min (lo + 1) (length s - 1) in
  (nth lo s 0 <= interpolate s k <= nth hi s 0)%R.
Proof.
  intros Hs Hlo Hn lo hi. unfold interpolate. fold lo. fold hi.
  assert (Hg : (0 <= IZR (k mod 100) / 100 < 1)%R).
  { pose proof (Z.mod_pos_bound k 100 ltac:(lia)) as [H0 H1].
    apply IZR_le in H0. apply IZR_lt in H1. lra. }
  assert (Hd : (nth lo s 0 <= nth hi s 0)%R).
  { apply sorted_nth_le; [exact Hs | unfold hi; lia]. }
  nra.
Qed.

Lemma np_percentile_value (a : list R) (q : Z) :
  a <> [] ->
  np_percentile a q
  = Ret (interpolate (sortR a) (Z.of_nat (length a - 1) * q)).
Proof.
  intros Hne. unfold np_percentile.
  destruct a as [|x r]; [contradiction |].
  rewrite sortR_length. reflexivity.
Qed.

Lemma nonempty_length {A : Type} (l : list A) : l <> [] -> (1 <= length l)%nat.
Proof. destruct l; [contradiction | simpl; lia]. Qed.

(** A percentile lies between two entries of the array. *)
Lemma interpolate_in_range (a : list R) (q : Z) (lo hi : R) :
  a <> [] -> 0 <= q <= 100 ->
  Forall (fun x => (lo <= x <= hi)%R) a ->
  (lo <= interpolate (sortR a) (Z.of_nat (length a - 1) * q) <= hi)%R.
Proof.
  intros Hne Hq Hall.
  pose proof (nonempty_length a Hne) as Hn.
  pose proof (index_parts (length a) q Hn Hq) as [Hlo _].
  pose proof (interpolate_between (sortR a) (Z.of_nat (length a - 1) * q)
                (sortR_sorted a)) as Hb.
  rewrite sortR_length in Hb. specialize (Hb Hlo Hn). simpl in Hb.
  assert (Hs : Forall (fun x => (lo <= x <= hi)%R) (sortR a)).
  { apply Permutation_Forall with a; [apply sortR_perm | exact Hall]. }
  rewrite Forall_forall in Hs.
  assert (H1 := Hs (nth (Z.to_nat (Z.of_nat (length a - 1) * q / 100)) (sortR a) 0%R)).
  assert (H2 := Hs (nth (Nat.min (Z.to_nat (Z.of_nat (length a - 1) * q / 100) + 1)
                                 (length a - 1)) (sortR a) 0%R)).
  lapply H1; [| apply nth_In; rewrite sortR_length; lia].
  lapply H2; [| apply nth_In; rewrite sortR_length; lia].
  intros. lra.
Qed.

Lemma interpolate_monotone (s : list R) (k1 k2 : Z) :
  StronglySorted Rle s -> (1 <= length s)%nat ->
  0 <= k1 <= k2 -> k2 <= 100 * Z.of_nat (length s - 1) ->
  (interpolate s k1 <= interpolate s k2)%R.
Proof.
  intros Hs Hn Hk Hk2.
  assert (Hd : k1 / 100 <= k2 / 100) by (apply Z.div_le_mono; lia).
  assert (H0 : 0 <= k1 / 100) by (apply Z.div_pos; lia).
  assert (Hu : k2 / 100 <= Z.of_nat (length s - 1))
    by (apply Z.div_le_upper_bound; lia).
  destruct (Z.eq_dec (k1 / 100) (k2 / 100)) as [E | NE].
  - unfold interpolate. rewrite <- E.
    set (lo := Z.to_nat (k1 / 100)).
    set (hi := Nat.min (lo + 1) (length s - 1)).
    assert (Hx : (nth lo s 0 <= nth hi s 0)%R).
    { apply sorted_nth_le; [exact Hs | unfold hi, lo; lia]. }
    assert (Hg : (IZR (k1 mod 100) <= IZR (k2 mod 100))%R).
    { apply IZR_le. rewrite !Z.mod_eq by lia. lia. }
    nra.
  - pose proof (interpolate_between s k1 Hs ltac:(lia) Hn) as [_ H1].
    pose proof (interpolate_between s k2 Hs ltac:(lia) Hn) as [H2 _].
    simpl in H1, H2.
    apply Rle_trans with (2 := H2). apply Rle_trans with (1 := H1).
    apply sorted_nth_le; [exact Hs | lia].
Qed.

Lemma filter_length_perm {A : Type} (f : A -> bool) (l l' : list A) :
  Permutation l l' -> length (filter f l) = length (filter f l').
Proof.
  induction 1 as [| x l l' _ IH | x y l | l l' l'' _ IH1 _ IH2]; simpl.
  - reflexivity.
  - destruct (f x); simpl; rewrite IH; reflexivity.
  - destruct (f x), (f y); reflexivity.
  - rewrite IH1. exact IH2.
Qed.

Lemma filter_length_all {A : Type} (f : A -> bool) (l : list A) :
  Forall (fun x => f x = true) l -> length (filter f l) = length l.
Proof.
  induction 1 as [|x l Hx _ IH]; simpl; [reflexivity |].
  rewrite Hx. simpl. rewrite IH. reflexivity.
Qed.

(** In a sorted array the entries up to index [m] are at most any bound of
    the entry at [m]. *)
Lemma sorted_count_le (s : list R) (x : R) (m : nat) :
  StronglySorted Rle s -> (m < length s)%nat -> (nth m s 0 <= x)%R ->
  (m + 1 <= count_le x s)%nat.
Proof.
  intros Hs Hm Hx. unfold count_le.
  rewrite <- (firstn_skipn (m + 1) s) at 1.
  rewrite filter_app, length_app.
  rewrite filter_length_all.
  - rewrite length_firstn. lia.
  - apply Forall_forall. intros y Hy.
    apply In_nth with (d := 0%R) in Hy. destruct Hy as [i [Hi <-]].
    rewrite length_firstn in Hi.
    rewrite nth_firstn. replace (i <? m + 1)%nat with true
      by (symmetry; apply Nat.ltb_lt; lia).
    apply Rle_bool_true.
    apply Rle_trans with (nth m s 0%R); [| exact Hx].
    apply sorted_nth_le; [exact Hs | lia].
Qed.

Lemma sorted_count_ge (s : list R) (x : R) (m : nat) :
  StronglySorted Rle s -> (m < length s)%nat -> (x <= nth m s 0)%R ->
  (length s - m <= count_ge x s)%nat.
Proof.
  intros Hs Hm Hx. unfold count_ge.
  rewrite <- (firstn_skipn m s) at 2.
  rewrite filter_app, length_app.
  rewrite (filter_length_all _ (skipn m s)).
  - rewrite length_skipn. lia.
  - apply Forall_forall. intros y Hy.
    apply In_nth with (d := 0%R) in Hy. destruct Hy as [i [Hi <-]].
    rewrite length_skipn in Hi.
    rewrite nth_skipn.
    apply Rle_bool_true.
    apply Rle_trans with (nth m s 0%R); [exact Hx |].
    apply sorted_nth_le; [exact Hs | lia].
Qed.

(** The rank of a percentile: more than [q] percent of [n - 1] entries are
    at or below it, and at least [100 - q] percent of [n - 1] are at or
    above it. *)
Lemma interpolate_rank (a : list R) (q : Z) :
  a <> [] -> 0 <= q <= 100 ->
  let v := interpolate (sortR a) (Z.of_nat (length a - 1) * q) in
  Z.of_nat (length a - 1) * q < 100 * Z.of_nat (count_le v a) /\
  Z.of_nat (length a - 1) * (100 - q) <= 100 * Z.of_nat (count_ge v a).
Proof.
  intros Hne Hq v.
  pose proof (nonempty_length a Hne) as Hn.
  pose proof (index_parts (length a) q Hn Hq) as [Hlo Hm].
  pose proof (interpolate_between (sortR a) (Z.of_nat (length a - 1) * q)
                (sortR_sorted a)) as Hb.
  rewrite sortR_length in Hb. specialize (Hb Hlo Hn). simpl in Hb.
  fold v in Hb. destruct Hb as [Hb1 Hb2].
  set (k := Z.of_nat (length a - 1) * q) in *.
  assert (Hk0 : 0 <= k / 100) by (apply Z.div_pos; unfold k; nia).
  pose proof (Z.div_mod k 100 ltac:(lia)) as Hdm.
  split.
  - unfold count_le.
    rewrite (filter_length_perm _ a (sortR a) (sortR_perm a)).
    pose proof (sorted_count_le (sortR a) v (Z.to_nat (k / 100)) (sortR_sorted a)) as Hc.
    rewrite sortR_length in Hc. unfold count_le in Hc.
    specialize (Hc ltac:(lia) Hb1). lia.
  - unfold count_ge.
    rewrite (filter_length_perm _ a (sortR a) (sortR_perm a)).
    pose proof (sorted_count_ge (sortR a) v
                  (Nat.min (Z.to_nat (k / 100) + 1) (length a - 1)) (sortR_sorted a)) as Hc.
    rewrite sortR_length in Hc. unfold count_ge in Hc.
    specialize (Hc ltac:(lia) Hb2). lia.
Qed.

Lemma to_dB_concat (rows : list (list R)) :
  concat (to_dB rows) = map dB (concat rows).
Proof. unfold to_dB. symmetry. apply concat_map. Qed.

Lemma clip_bounds_value (db : list (list R)) :
  concat db <> [] ->
  clip_bounds db
  = Ret (interpolate (sortR (concat db)) (Z.of_nat (length (concat db) - 1) * 5),
         interpolate (sortR (concat db)) (Z.of_nat (length (concat db) - 1) * 99)).
Proof.
  intros Hne. unfold clip_bounds.
  rewrite !np_percentile_value by exact Hne. reflexivity.
Qed.

(** The two percentiles of a matrix with at least one entry: where they
    stand among the values, and in which order. *)
Lemma clip_bounds_percentiles (db : list (list R)) :
  let a := concat db in
  let m := Z.of_nat (length a - 1) in
  a <> [] ->
  exists vmin vmax,
    clip_bounds db = Ret (vmin, vmax) /\
    np_percentile a 5 = Ret vmin /\
    np_percentile a 99 = Ret vmax /\
    m * 5 < 100 * Z.of_nat (count_le vmin a) /\
    m * 95 <= 100 * Z.of_nat (count_ge vmin a) /\
    m * 99 < 100 * Z.of_nat (count_le vmax a) /\
    m * 1 <= 100 * Z.of_nat (count_ge vmax a) /\
    (vmin <= vmax)%R.
Proof.
  intros a m Ha.
  exists (interpolate (sortR a) (m * 5)), (interpolate (sortR a) (m * 99)).
  split; [apply clip_bounds_value; exact Ha |].
  split; [apply np_percentile_value; exact Ha |].
  split; [apply np_percentile_value; exact Ha |].
  destruct (interpolate_rank a 5 Ha ltac:(lia)) as [R1 R2].
  destruct (interpolate_rank a 99 Ha ltac:(lia)) as [R3 R4].
  fold m in R1, R2, R3, R4.
  repeat (split; [assumption |]).
  apply interpolate_monotone.
  - apply sortR_sorted.
  - rewrite sortR_length. apply nonempty_length, Ha.
  - lia.
  - rewrite sortR_length. fold m. lia.
Qed.

Lemma to_dB_nonempty (rows : list (list R)) :
  concat rows <> [] -> concat (to_dB rows) <> [].
Proof.
  intros Hne. rewrite to_dB_concat. intros E.
  apply map_eq_nil in E. contradiction.
Qed.

(** ** A uniform matrix (lines 48-54) *)

Lemma uniform_concat (c : R) (m : list (list R)) :
  uniform c m -> Forall (eq c) (concat m).
Proof.
  induction 1 as [|row m Hrow _ IH]; simpl.
  - constructor.
  - apply Forall_app. split; assumption.
Qed.

Lemma uniform_compress (c : R) (mask : list bool) :
  forall m, uniform c m -> uniform c (compress mask m).
Proof.
  induction mask as [|b mask IH]; intros [|row m] H; simpl; try constructor.
  inversion H; subst.
  destruct b; [constructor; [assumption | apply IH; assumption] | apply IH; assumption].
Qed.

Lemma uniform_to_dB (c : R) (m : list (list R)) :
  uniform c m -> uniform (dB c) (to_dB m).
Proof.
  intros H. unfold uniform, to_dB in *.
  apply Forall_map. apply Forall_impl with (2 := H).
  intros row Hrow. apply Forall_map. apply Forall_impl with (2 := Hrow).
  intros x <-. reflexivity.
Qed.

(** Both percentiles of a uniform matrix are its value: the range has
    width zero. *)
Lemma clip_bounds_uniform (c : R) (db : list (list R)) :
  uniform c db -> concat db <> [] -> clip_bounds db = Ret (c, c).
Proof.
  intros Hu Hne.
  rewrite clip_bounds_value by exact Hne.
  assert (Hall : Forall (fun x => (c <= x <= c)%R) (concat db)).
  { apply Forall_impl with (2 := uniform_concat c db Hu). intros x <-. lra. }
  pose proof (interpolate_in_range (concat db) 5 c c Hne ltac:(lia) Hall).
  pose proof (interpolate_in_range (concat db) 99 c c Hne ltac:(lia) Hall).
  f_equal. f_equal; lra.
Qed.

(** C4, as stated, fails: for a matrix of zero power the two ends of the
    range handed on are the same number; no positive span is put in its
    place. *)
Lemma silent_range_has_no_span :
  ~ (forall (c : R) (rows : list (list R)),
       uniform c rows -> concat rows <> [] ->
       exists vmin vmax,
         clip_bounds (to_dB rows) = Ret (vmin, vmax) /\ (vmin < vmax)%R).
Proof.
  intros H.
  destruct (H 0%R [[0; 0]; [0; 0]]%R) as [vmin [vmax [Hb Hlt]]].
  - repeat constructor.
  - discriminate.
  - rewrite (clip_bounds_uniform (dB 0)) in Hb.
    + injection Hb as <- <-. lra.
    + apply uniform_to_dB. repeat constructor.
    + discriminate.
Qed.

(** With at least 8 samples after decimation and bounds [(vmin, vmax)] for
    the masked dB matrix, the call is the rendering of that matrix with
    exactly these bounds, base64-encoded. *)
Lemma render_sono_accepted (L : Libs) (data : list R) (sr : Z)
      (f t : list R) (Sxx : list (list R)) (vmin vmax : R) :
  let d := fst (resample data sr) in
  let s := snd (resample data sr) in
  let nperseg := nperseg_of (len d) in
  let mask := freq_mask f in
  8 <= len d ->
  stft L d s nperseg (noverlap_of nperseg) 1024 = (f, t, Sxx) ->
  length f = length Sxx ->
  clip_bounds (to_dB (compress mask Sxx)) = Ret (vmin, vmax) ->
  render_sono L data sr
  = (png <- savefig L t (map (fun x => (x / 1000)%R) (compress mask f))
                    (to_dB (compress mask Sxx)) vmin vmax ;;
     Ret (Some (b64encode L png))).
Proof.
  intros d s nperseg mask Hn Hst Hlen Hb.
  subst mask nperseg d s.
  unfold render_sono.
  destruct (resample data sr) as [d s]. simpl in *.
  rewrite spectrogram_accepts by exact Hn.
  rewrite Hst. simpl.
  rewrite (bool_index_same_length (freq_mask f) Sxx)
    by (rewrite freq_mask_length; exact Hlen).
  simpl. rewrite Hb. simpl.
  rewrite (bool_index_same_length (freq_mask f) f) by apply freq_mask_length.
  reflexivity.
Qed.

Lemma clip_bounds_uniform_power (c : R) (mask : list bool) (Sxx : list (list R)) :
  uniform c Sxx -> concat (compress mask Sxx) <> [] ->
  clip_bounds (to_dB (compress mask Sxx)) = Ret (dB c, dB c).
Proof.
  intros Hu Hne. apply clip_bounds_uniform.
  - apply uniform_to_dB, uniform_compress, Hu.
  - rewrite to_dB_concat. intros E. apply map_eq_nil in E. contradiction.
Qed.

(** ** What the rendering receives (lines 45-54) *)

(** With at least 8 samples after decimation, what is rendered is what
    the mask [f <= 8000] keeps of the frequencies and of the rows of the
    transform, and nothing else of them. *)
Lemma render_sono_masked (L : Libs) (data : list R) (sr : Z)
      (f t : list R) (Sxx : list (list R)) :
  let d := fst (resample data sr) in
  let s := snd (resample data sr) in
  let nperseg := nperseg_of (len d) in
  let mask := freq_mask f in
  8 <= len d ->
  stft L d s nperseg (noverlap_of nperseg) 1024 = (f, t, Sxx) ->
  length f = length Sxx ->
  render_sono L data sr
  = ('(vmin, vmax) <- clip_bounds (to_dB (compress mask Sxx)) ;;
     png <- savefig L t (map (fun x => (x / 1000)%R) (compress mask f))
                    (to_dB (compress mask Sxx)) vmin vmax ;;
     Ret (Some (b64encode L png))).
Proof.
  intros d s nperseg mask Hn Hst Hlen.
  subst mask nperseg d s.
  unfold render_sono.
  destruct (resample data sr) as [d s]. simpl in *.
  rewrite spectrogram_accepts by exact Hn.
  rewrite Hst. simpl.
  rewrite (bool_index_same_length (freq_mask f) Sxx)
    by (rewrite freq_mask_length; exact Hlen).
  simpl.
  destruct (clip_bounds (to_dB (compress (freq_mask f) Sxx))) as [[vmin vmax] | e];
    [| reflexivity].
  simpl.
  rewrite (bool_index_same_length (freq_mask f) f) by apply freq_mask_length.
  reflexivity.
Qed.

(** C7: of the transform that [make_sono] computed, the percentiles and the
    rendering see the rows kept by the mask and no other: these are exactly
    the rows whose frequency is at most 8000 Hz, in order, each with its
    frequency; every kept frequency is at most 8000 Hz, and no row of a
    frequency above 8000 Hz is kept. *)
Theorem mask_keeps_up_to_8000 :
  forall (L : Libs) (data : list R) (sr : Z)
         (f t : list R) (Sxx : list (list R)),
    let d := fst (resample data sr) in
    let s := snd (resample data sr) in
    let nperseg := nperseg_of (len d) in
    let mask := freq_mask f in
    let kept_f := compress mask f in
    let kept_rows := compress mask Sxx in
    8 <= len d ->
    stft L d s nperseg (noverlap_of nperseg) 1024 = (f, t, Sxx) ->
    length f = length Sxx ->
    render_sono L data sr
    = ('(vmin, vmax) <- clip_bounds (to_dB kept_rows) ;;
       png <- savefig L t (map (fun x => (x / 1000)%R) kept_f)
                      (to_dB kept_rows) vmin vmax ;;
       Ret (Some (b64encode L png))) /\
    bool_index mask Sxx = Ret kept_rows /\
    bool_index mask f = Ret kept_f /\
    combine kept_f kept_rows
    = filter (fun p => Rle_bool (fst p) 8000) (combine f Sxx) /\
    Forall (fun x => (x <= 8000)%R) kept_f /\
    (forall fr row, (8000 < fr)%R -> ~ In (fr, row) (combine kept_f kept_rows)).
Proof.
  intros L data sr f t Sxx d s nperseg mask kept_f kept_rows Hn Hst H.
  unfold kept_f, kept_rows, mask.
  split; [apply (render_sono_masked L data sr f t Sxx Hn Hst H) |].
  split; [apply bool_index_same_length; rewrite freq_mask_length; exact H |].
  split; [apply bool_index_same_length; apply freq_mask_length |].
  split; [apply compress_mask_combine; exact H |].
  split; [apply compress_mask_bound |].
  intros fr row Hfr Hin.
  rewrite compress_mask_combine in Hin by exact H.
  apply filter_In in Hin. destruct Hin as [_ Hle].
  apply Rle_bool_true in Hle. simpl in Hle. lra.
Qed.

Lemma mask_keeps_up_to_8000_witness :
  render_sono
    (fixture no_soundfile not_a_wav
             ([0; 4000; 11025]%R, [0; 1]%R, [[1; 1]; [2; 2]; [3; 3]]%R)
             (Ret png_stub))
    [0; 0; 0; 0; 0; 0; 0; 0]%R 22050
  = ('(vmin, vmax) <- clip_bounds (to_dB [[1; 1]; [2; 2]]%R) ;;
     Ret (Some "iVBORw0KGgo="%string)) /\
  Forall (fun x => (x <= 8000)%R)
    (compress (freq_mask [0; 4000; 11025]%R) [0; 4000; 11025]%R).
Proof.
  destruct (mask_keeps_up_to_8000
              (fixture no_soundfile not_a_wav
                       ([0; 4000; 11025]%R, [0; 1]%R, [[1; 1]; [2; 2]; [3; 3]]%R)
                       (Ret png_stub))
              [0; 0; 0; 0; 0; 0; 0; 0]%R 22050
              [0; 4000; 11025]%R [0; 1]%R [[1; 1]; [2; 2]; [3; 3]]%R)
    as [E [_ [_ [_ [Hle _]]]]].
  - vm_compute. discriminate.
  - reflexivity.
  - reflexivity.
  - split; [| exact Hle].
    rewrite E. unfold freq_mask, Rle_bool. simpl.
    destruct (Rle_dec 0 8000); [| lra].
    destruct (Rle_dec 4000 8000); [| lra].
    destruct (Rle_dec 11025 8000); [lra |].
    simpl.
    destruct (clip_bounds (to_dB [[1; 1]; [2; 2]]%R)) as [[vmin vmax] | e];
      reflexivity.
Defined.

(** C6: of the rows the mask kept, the matrix handed to the rendering holds
    [10 * log10(max(p, 1e-10))] at every place; the argument of the
    logarithm is positive whatever the power, zero included, so that every
    entry is a number.  With at least one entry, [vmin] and [vmax] are the
    5th and 99th percentiles of all its values: more than 5 (99) percent of
    [n - 1] entries are at or below [vmin] ([vmax]), at least 95 (1)
    percent of [n - 1] are at or above, [vmin <= vmax], and these two are
    the bounds the rendering is called with. *)
Theorem dB_and_percentile_bounds :
  forall (L : Libs) (data : list R) (sr : Z)
         (f t : list R) (Sxx : list (list R)),
    let d := fst (resample data sr) in
    let s := snd (resample data sr) in
    let nperseg := nperseg_of (len d) in
    let mask := freq_mask f in
    let rows := compress mask Sxx in
    let Sxx_db := map (map (fun p => (10 * (ln (Rmax p 1e-10) / ln 10))%R)) rows in
    let a := concat Sxx_db in
    let m := Z.of_nat (length a - 1) in
    8 <= len d ->
    stft L d s nperseg (noverlap_of nperseg) 1024 = (f, t, Sxx) ->
    length f = length Sxx ->
    concat rows <> [] ->
    Forall (Forall (fun p => (0 < Rmax p 1e-10)%R)) rows /\
    exists vmin vmax,
      np_percentile a 5 = Ret vmin /\
      np_percentile a 99 = Ret vmax /\
      m * 5 < 100 * Z.of_nat (count_le vmin a) /\
      m * 95 <= 100 * Z.of_nat (count_ge vmin a) /\
      m * 99 < 100 * Z.of_nat (count_le vmax a) /\
      m * 1 <= 100 * Z.of_nat (count_ge vmax a) /\
      (vmin <= vmax)%R /\
      render_sono L data sr
      = (png <- savefig L t (map (fun x => (x / 1000)%R) (compress mask f))
                        Sxx_db vmin vmax ;;
         Ret (Some (b64encode L png))).
Proof.
  intros L data sr f t Sxx d s nperseg mask rows Sxx_db a m Hn Hst Hlen Hne.
  split.
  { apply Forall_forall. intros row _. apply Forall_forall. intros p _.
    apply floored_pos. }
  destruct (clip_bounds_percentiles (to_dB rows) (to_dB_nonempty rows Hne))
    as [vmin [vmax [Hb [P5 [P99 [R1 [R2 [R3 [R4 Ho]]]]]]]]].
  exists vmin, vmax.
  repeat (split; [assumption |]).
  apply (render_sono_accepted L data sr f t Sxx vmin vmax Hn Hst Hlen Hb).
Qed.

Lemma dB_and_percentile_bounds_witness :
  exists vmin vmax,
    np_percentile (concat (to_dB [[4; 0]; [1; 2]]%R)) 5 = Ret vmin /\
    np_percentile (concat (to_dB [[4; 0]; [1; 2]]%R)) 99 = Ret vmax /\
    (vmin <= vmax)%R /\
    render_sono
      (fixture no_soundfile not_a_wav
               ([0; 4000; 11025]%R, [0; 1]%R, [[4; 0]; [1; 2]; [3; 3]]%R)
               (Ret png_stub))
      [0; 0; 0; 0; 0; 0; 0; 0]%R 22050
    = Ret (Some "iVBORw0KGgo="%string).
Proof.
  destruct (dB_and_percentile_bounds
              (fixture no_soundfile not_a_wav
                       ([0; 4000; 11025]%R, [0; 1]%R, [[4; 0]; [1; 2]; [3; 3]]%R)
                       (Ret png_stub))
              [0; 0; 0; 0; 0; 0; 0; 0]%R 22050
              [0; 4000; 11025]%R [0; 1]%R [[4; 0]; [1; 2]; [3; 3]]%R)
    as [_ [vmin [vmax [P5 [P99 [_ [_ [_ [_ [Ho E]]]]]]]]]].
  - vm_compute. discriminate.
  - reflexivity.
  - reflexivity.
  - unfold freq_mask, Rle_bool. simpl.
    destruct (Rle_dec 0 8000); [discriminate | lra].
  - exists vmin, vmax.
    unfold freq_mask, Rle_bool in P5, P99. simpl in P5, P99.
    destruct (Rle_dec 0 8000); [| lra].
    destruct (Rle_dec 4000 8000); [| lra].
    destruct (Rle_dec 11025 8000); [lra |].
    split; [exact P5 |]. split; [exact P99 |]. split; [exact Ho |].
    rewrite E. reflexivity.
Defined.

(** ** A uniform matrix, rendered *)

(** C4, amended: when the power matrix is uniform, both percentiles are
    its dB value, and [make_sono] hands this range of width zero to the
    rendering as it is; the result is the base64 text of whatever the
    rendering returns. *)
Theorem uniform_power_range_unclamped :
  forall (L : Libs) (data : list R) (sr : Z)
         (f t : list R) (Sxx : list (list R)) (c : R),
    let d := fst (resample data sr) in
    let s := snd (resample data sr) in
    let nperseg := nperseg_of (len d) in
    let mask := freq_mask f in
    8 <= len d ->
    stft L d s nperseg (noverlap_of nperseg) 1024 = (f, t, Sxx) ->
    length f = length Sxx ->
    uniform c Sxx ->
    concat (compress mask Sxx) <> [] ->
    clip_bounds (to_dB (compress mask Sxx)) = Ret (dB c, dB c) /\
    render_sono L data sr
    = (png <- savefig L t (map (fun x => (x / 1000)%R) (compress mask f))
                      (to_dB (compress mask Sxx)) (dB c) (dB c) ;;
       Ret (Some (b64encode L png))).
Proof.
  intros L data sr f t Sxx c d s nperseg mask Hn Hst Hlen Hu Hne.
  pose proof (clip_bounds_uniform_power c mask Sxx Hu Hne) as Hb.
  split; [exact Hb |].
  apply (render_sono_accepted L data sr f t Sxx (dB c) (dB c) Hn Hst Hlen Hb).
Qed.

Lemma uniform_power_range_unclamped_witness :
  render_sono
    (fixture no_soundfile not_a_wav silent_spec (Ret png_stub))
    [0; 0; 0; 0; 0; 0; 0; 0]%R 22050
  = Ret (Some "iVBORw0KGgo="%string).
Proof.
  destruct (uniform_power_range_unclamped
              (fixture no_soundfile not_a_wav silent_spec (Ret png_stub))
              [0; 0; 0; 0; 0; 0; 0; 0]%R 22050
              [0; 4000; 11025]%R [0; 1]%R [[0; 0]; [0; 0]; [0; 0]]%R 0%R)
    as [_ H].
  - vm_compute. discriminate.
  - reflexivity.
  - reflexivity.
  - repeat constructor.
  - unfold freq_mask, Rle_bool. simpl.
    destruct (Rle_dec 0 8000); [discriminate | lra].
  - rewrite H. reflexivity.
Defined.

(** ** The scenarios of the specification, run *)

(** Two seconds of silence need not be spelled out: nine silent samples
    through the WAV fallback already give a picture. *)
Example silence_gives_a_picture :
  fst (make_sono
         (fixture no_soundfile
                  (Ret (22050, Arr1 Int16 [0; 0; 0; 0; 0; 0; 0; 0; 0]%R))
                  silent_spec (Ret png_stub))
         "silence.wav" (world_with "silence.wav" [] 0 0))
  = Ret (Some "iVBORw0KGgo="%string).
Proof.
  unfold make_sono, decode, try_except, wav_strategy. simpl.
  rewrite wav_normalize_mono_quiet;
    [| discriminate | repeat constructor; lra].
  simpl.
  rewrite (render_sono_accepted _ _ 22050
             [0; 4000; 11025]%R [0; 1]%R [[0; 0]; [0; 0]; [0; 0]]%R (dB 0) (dB 0)).
  - reflexivity.
  - vm_compute. discriminate.
  - reflexivity.
  - reflexivity.
  - apply clip_bounds_uniform_power; [repeat constructor |].
    unfold freq_mask, Rle_bool. simpl.
    destruct (Rle_dec 0 8000); [discriminate | lra].
Qed.

(** Four samples at 22050 Hz: the call ends in the [ValueError] of
    [spectrogram]. *)
Example four_samples_raise_ValueError :
  fst (make_sono
         (fixture no_soundfile (Ret (22050, Arr1 Int16 [0; 0; 0; 0]%R))
                  silent_spec (Ret png_stub))
         "short.wav" (world_with "short.wav" [] 0 0))
  = Raise (ValueError "nperseg must be a positive integer").
Proof.
  unfold make_sono, decode, try_except, wav_strategy. simpl.
  rewrite wav_normalize_mono_quiet;
    [| discriminate | repeat constructor; lra].
  simpl. apply render_sono_short_ValueError.
  - lia.
  - vm_compute. split; [discriminate | reflexivity].
Qed.

(** Two channels of opposite phase average to silence. *)
Example opposite_phase_cancels :
  forall x : R, row_mean [x; (- x)%R] = 0%R.
Proof. intros x. unfold row_mean. simpl. field. Qed.

(** A three-byte file that no reader understands gives [None] and one
    line of output. *)
Example garbage_gives_None :
  make_sono (fixture no_soundfile not_a_wav silent_spec (Ret png_stub))
            "garbage.wav"
            (world_with "garbage.wav" [Byte.x61; Byte.x62; Byte.x63] 0 0)
  = (Ret None,
     print "    ⚠ sono skip (File format b'abc' not understood.)"
           (world_with "garbage.wav" [Byte.x61; Byte.x62; Byte.x63] 0 0)).
Proof. reflexivity. Qed.

(** A recording at 44100 Hz is halved to exactly 22050 Hz, one at 32000 Hz
    is left at 32000 Hz (the step is 1). *)
Example resample_44100 :
  resample [1; 2; 3; 4; 5] 44100 = ([1; 3; 5], 22050).
Proof. reflexivity. Qed.

Example resample_32000 :
  resample [1; 2; 3; 4; 5] 32000 = ([1; 2; 3; 4; 5], 32000).
Proof. reflexivity. Qed.

Example resample_96000 :
  resample [1; 2; 3; 4; 5; 6; 7; 8; 9] 96000 = ([1; 5; 9], 24000).
Proof. reflexivity. Qed.

(** * More properties of [make_sono] *)

(** ** More on the decimation (lines 39-42) *)

(** X2: above the ceiling the rate after decimation stays between 22050
    and 44100 Hz, and it is exactly 22050 Hz only when the remainder of
    [sr] by 22050 is smaller than the step. *)
Theorem resample_rate_range :
  forall (A : Type) (data : list A) (sr : Z),
    22050 < sr ->
    22050 <= snd (resample data sr) < 44100 /\
    snd (resample data sr) <= sr /\
    (snd (resample data sr) = 22050 <-> sr mod 22050 < sr / 22050).
Proof.
  intros A data sr H.
  pose proof (resample_rate_below_double data sr) as Hb.
  rewrite resample_rate_high in * by exact H.
  assert (Hq : 1 <= sr / 22050) by (apply Z.div_le_lower_bound; lia).
  pose proof (Z.mod_pos_bound sr 22050 ltac:(lia)) as Hm.
  assert (H0 : 0 <= sr mod 22050 / (sr / 22050)) by (apply Z.div_pos; lia).
  assert (Hle : sr mod 22050 / (sr / 22050) <= sr mod 22050)
    by (apply Z.div_le_upper_bound; nia).
  pose proof (Z.div_mod sr 22050 ltac:(lia)) as Hdm.
  split; [lia |]. split; [nia |].
  split.
  - intros E. assert (E0 : sr mod 22050 / (sr / 22050) = 0) by lia.
    apply Z.div_small_iff in E0; lia.
  - intros Hs. rewrite Z.div_small by lia. lia.
Qed.

Lemma resample_rate_range_witness :
  snd (resample [1; 2; 3] 48000) <= 48000.
Proof.
  apply (resample_rate_range Z [1; 2; 3] 48000). lia.
Defined.

Lemma stride_from_nth {A : Type} (d : A) (step : nat) (l : list A) :
  forall skip i,
    nth i (stride_from (S step) skip l) d = nth (skip + i * S step) l d.
Proof.
  induction l as [|x r IH]; intros skip i.
  - simpl. destruct i, skip; reflexivity.
  - destruct skip as [|s].
    + destruct i as [|i]; [reflexivity |].
      cbn [stride_from nth]. rewrite IH.
      replace (0 + S i * S step)%nat with (S (S step - 1 + i * S step)) by lia.
      reflexivity.
    + cbn [stride_from]. rewrite IH. reflexivity.
Qed.

Lemma stride_from_length_exact {A : Type} (step : nat) (l : list A) :
  forall skip,
    (length (stride_from (S step) skip l) * S step
     < length l - skip + S step)%nat /\
    (length l - skip <= length (stride_from (S step) skip l) * S step)%nat.
Proof.
  induction l as [|x r IH]; intros skip.
  - simpl. lia.
  - destruct skip as [|s]; cbn [stride_from length].
    + destruct (IH (S step - 1)%nat) as [H1 H2].
      remember (length (stride_from (S step) (S step - 1) r)) as n eqn:En.
      clear En. destruct n as [|n]; nia.
    + destruct (IH s) as [H1 H2].
      remember (length (stride_from (S step) s r)) as n eqn:En.
      clear En. nia.
Qed.

(** X3: [data[::step]] keeps exactly the samples at the indices 0, [step],
    [2 * step], ...: entry [i] of the result is entry [i * step] of the
    input, and the result has [ceil(len / step)] entries. *)
Theorem stride_keeps_multiples :
  forall (A : Type) (d : A) (step : Z) (l : list A),
    1 <= step ->
    (forall i : nat,
        nth i (stride step l) d = nth (i * Z.to_nat step) l d) /\
    len (stride step l) = (len l + step - 1) / step.
Proof.
  intros A d step l H.
  unfold stride, len.
  destruct (Z.to_nat step) as [|n] eqn:E; [lia |].
  split.
  - intros i. rewrite stride_from_nth. reflexivity.
  - pose proof (stride_from_length_exact n l 0%nat) as [H1 H2].
    rewrite Nat.sub_0_r in H1, H2.
    assert (Es : step = Z.of_nat (S n)) by lia.
    apply Z.div_unique with
      (r := Z.of_nat (length l) + step - 1
            - step * Z.of_nat (length (stride_from (S n) 0 l))).
    + left. nia.
    + lia.
Qed.

Lemma stride_keeps_multiples_witness :
  len (stride 2 [10; 20; 30; 40; 50]) = (len [10; 20; 30; 40; 50] + 2 - 1) / 2.
Proof.
  apply (stride_keeps_multiples Z 0 2 [10; 20; 30; 40; 50]). lia.
Defined.

(** ** More on the decoding (lines 21-36) *)










(** X7: without the sound-file reader, a WAV file with no sample at all
    gets no sonogram: the maximum of line 32 has nothing to reduce, and
    [make_sono] returns [None]. *)
Theorem empty_wav_fallback_gives_None :
  forall (L : Libs) (path : string) (w : World) (e1 : exn)
         (sr : Z) (dt : dtype),
    sf_strategy L (files w path) = Raise e1 ->
    (wavfile_read L (files w path) = Ret (sr, Arr1 dt []) \/
     wavfile_read L (files w path) = Ret (sr, Arr2 dt [])) ->
    fst (make_sono L path w) = Ret None.
Proof.
  intros L path w e1 sr dt H1 [H2 | H2];
    unfold make_sono, decode, try_except, wav_strategy;
    rewrite H1, H2; reflexivity.
Qed.

Lemma empty_wav_fallback_gives_None_witness :
  fst (make_sono
         (fixture no_soundfile (Ret (8000, Arr1 Int16 []))
                  silent_spec (Ret png_stub))
         "e.wav" (world_with "e.wav" [] 0 0))
  = Ret None.
Proof.
  apply (empty_wav_fallback_gives_None _ _ _
           (ImportError "No module named 'soundfile'") 8000 Int16).
  - reflexivity.
  - left. reflexivity.
Defined.

(** ** The whole call *)

Lemma clip_bounds_ordered (rows : list (list R)) :
  concat rows <> [] ->
  exists vmin vmax,
    clip_bounds (to_dB rows) = Ret (vmin, vmax) /\ (vmin <= vmax)%R.
Proof.
  intros Hne.
  destruct (clip_bounds_percentiles (to_dB rows) (to_dB_nonempty rows Hne))
    as [vmin [vmax [Hb [_ [_ [_ [_ [_ [_ Ho]]]]]]]]].
  exists vmin, vmax. split; assumption.
Qed.

(** X8: when the decoding succeeds, at least 8 samples are left after the
    decimation and at least one cell of the transform is at or below
    8 kHz, [make_sono] prints nothing, hands the rendering the two
    percentiles of the masked dB matrix, which satisfy [vmin <= vmax], and
    returns the base64 text of the picture (or the error of the
    rendering). *)
Theorem make_sono_renders_ordered_range :
  forall (L : Libs) (path : string) (w : World) (data : list R) (sr : Z)
         (f t : list R) (Sxx : list (list R)),
    let d := fst (resample data sr) in
    let s := snd (resample data sr) in
    let nperseg := nperseg_of (len d) in
    let mask := freq_mask f in
    decode L (files w path) = Ret (data, sr) ->
    8 <= len d ->
    stft L d s nperseg (noverlap_of nperseg) 1024 = (f, t, Sxx) ->
    length f = length Sxx ->
    concat (compress mask Sxx) <> [] ->
    exists vmin vmax,
      clip_bounds (to_dB (compress mask Sxx)) = Ret (vmin, vmax) /\
      (vmin <= vmax)%R /\
      make_sono L path w
      = ((png <- savefig L t (map (fun x => (x / 1000)%R) (compress mask f))
                         (to_dB (compress mask Sxx)) vmin vmax ;;
          Ret (Some (b64encode L png))), w).
Proof.
  intros L path w data sr f t Sxx d s nperseg mask Hd Hn Hst Hlen Hne.
  destruct (clip_bounds_ordered (compress mask Sxx) Hne) as [vmin [vmax [Hb Ho]]].
  exists vmin, vmax. split; [exact Hb |]. split; [exact Ho |].
  unfold make_sono. rewrite Hd.
  rewrite (render_sono_accepted L data sr f t Sxx vmin vmax Hn Hst Hlen Hb).
  reflexivity.
Qed.

Lemma make_sono_renders_ordered_range_witness :
  exists vmin vmax,
    (vmin <= vmax)%R /\
    make_sono (fixture (Ret ([[0]; [0]; [0]; [0]; [0]; [0]; [0]; [0]]%R, 22050))
                       not_a_wav silent_spec (Ret png_stub))
              "s.wav" (world_with "s.wav" [] 0 0)
    = (Ret (Some "iVBORw0KGgo="%string), world_with "s.wav" [] 0 0).
Proof.
  destruct (make_sono_renders_ordered_range
              (fixture (Ret ([[0]; [0]; [0]; [0]; [0]; [0]; [0]; [0]]%R, 22050))
                       not_a_wav silent_spec (Ret png_stub))
              "s.wav" (world_with "s.wav" [] 0 0)
              (mean_axis1 [[0]; [0]; [0]; [0]; [0]; [0]; [0]; [0]]%R) 22050
              [0; 4000; 11025]%R [0; 1]%R [[0; 0]; [0; 0]; [0; 0]]%R)
    as [vmin [vmax [_ [Ho E]]]].
  - reflexivity.
  - vm_compute. discriminate.
  - reflexivity.
  - reflexivity.
  - unfold freq_mask, Rle_bool. simpl.
    destruct (Rle_dec 0 8000); [discriminate | lra].
  - exists vmin, vmax. split; [exact Ho | exact E].
Defined.

(** * Properties of the rest of the build script *)

(** ** Sorting names (line 104) *)

Lemma string_compare_as_OT (a b : string) :
  String.compare a b = String_as_OT.compare a b.
Proof.
  revert b. induction a as [|x a IH]; intros [|y b]; simpl; reflexivity.
Qed.

Lemma string_leb_not_lt (a b : string) :
  String.leb a b = true <-> ~ String_as_OT.lt b a.
Proof.
  unfold String.leb. rewrite string_compare_as_OT.
  destruct (String_as_OT.compare_spec a b) as [E | H | H].
  - red in E. subst.
    split; [intros _ H'; exact (StrictOrder_Irreflexive _ H') | reflexivity].
  - split; [| reflexivity].
    intros _ H'. apply (StrictOrder_Irreflexive a). etransitivity; eassumption.
  - split; [discriminate | intros H'; contradiction].
Qed.

Lemma string_leb_trans (a b c : string) :
  String.leb a b = true -> String.leb b c = true -> String.leb a c = true.
Proof.
  rewrite !string_leb_not_lt. intros Hab Hbc Hca.
  destruct (String_as_OT.compare_spec c b) as [E | H | H].
  - red in E. subst. contradiction.
  - contradiction.
  - apply Hab. etransitivity; eassumption.
Qed.

Lemma string_leb_false (a b : string) :
  String.leb a b = false -> String.leb b a = true.
Proof.
  intros H. destruct (String.leb_total a b) as [E | E]; [congruence | exact E].
Qed.

Lemma insert_string_perm (x : string) (l : list string) :
  Permutation (x :: l) (insert_string x l).
Proof.
  induction l as [|y r IH]; simpl.
  - apply Permutation_refl.
  - destruct (String.leb x y).
    + apply Permutation_refl.
    + apply perm_trans with (y :: x :: r); [apply perm_swap | apply perm_skip, IH].
Qed.

Lemma sorted_perm (l : list string) : Permutation l (sorted l).
Proof.
  induction l as [|x r IH]; simpl.
  - apply perm_nil.
  - apply perm_trans with (x :: sorted r);
      [apply perm_skip, IH | apply insert_string_perm].
Qed.

Lemma insert_string_sorted (x : string) (l : list string) :
  StronglySorted string_le l -> StronglySorted string_le (insert_string x l).
Proof.
  induction 1 as [|y r Hs IH Hy]; simpl.
  - repeat constructor.
  - destruct (String.leb x y) eqn:E.
    + constructor; [constructor; assumption |].
      constructor; [exact E |].
      apply Forall_impl with (2 := Hy). intros z Hz.
      apply string_leb_trans with y; assumption.
    + constructor; [exact IH |].
      apply Permutation_Forall with (x :: r); [apply insert_string_perm |].
      constructor; [apply string_leb_false; exact E | exact Hy].
Qed.

Lemma sorted_is_sorted (l : list string) : StronglySorted string_le (sorted l).
Proof.
  induction l as [|x r IH]; simpl; [constructor | apply insert_string_sorted, IH].
Qed.

(** Two sorted lists with the same entries are the same list, when no
    two different entries are each before the other. *)
Lemma sorted_perm_unique {A : Type} (le : A -> A -> Prop) (l1 : list A) :
  forall l2,
    StronglySorted le l1 -> StronglySorted le l2 ->
    Permutation l1 l2 ->
    (forall x y, In x l1 -> In y l1 -> le x y -> le y x -> x = y) ->
    l1 = l2.
Proof.
  induction l1 as [|x r1 IH]; intros l2 H1 H2 Hp Hanti.
  - apply Permutation_nil in Hp. symmetry. exact Hp.
  - destruct l2 as [|y r2].
    + apply Permutation_sym, Permutation_nil in Hp. discriminate.
    + inversion H1 as [|? ? Hs1 Hx]; subst.
      inversion H2 as [|? ? Hs2 Hy]; subst.
      rewrite Forall_forall in Hx, Hy.
      assert (Hiny : In y (x :: r1))
        by (apply Permutation_in with (y :: r2);
            [apply Permutation_sym; exact Hp | left; reflexivity]).
      assert (Hinx : In x (y :: r2))
        by (apply Permutation_in with (x :: r1); [exact Hp | left; reflexivity]).
      assert (Exy : x = y).
      { destruct Hiny as [E | Hiny]; [exact E |].
        destruct Hinx as [E | Hinx]; [symmetry; exact E |].
        apply Hanti; [left; reflexivity | right; exact Hiny | |].
        - apply Hx. exact Hiny.
        - apply Hy. exact Hinx. }
      subst y. f_equal. apply IH; try assumption.
      * apply Permutation_cons_inv with x. exact Hp.
      * intros a b Ha Hb. apply Hanti; right; assumption.
Qed.

Lemma sorted_of_permutation (l1 l2 : list string) :
  Permutation l1 l2 -> sorted l1 = sorted l2.
Proof.
  intros Hp. apply (sorted_perm_unique string_le); try apply sorted_is_sorted.
  - apply perm_trans with l1; [apply Permutation_sym, sorted_perm |].
    apply perm_trans with l2; [exact Hp | apply sorted_perm].
  - intros x y _ _. apply String.leb_antisym.
Qed.

(** ** The recordings loop (lines 103-126) *)

Lemma make_sono_files (L : Libs) (path : string) (w : World) :
  files (snd (make_sono L path w)) = files w.
Proof.
  unfold make_sono.
  destruct (decode L (files w path)) as [[data sr] | e]; reflexivity.
Qed.

Lemma make_sono_same_files (L : Libs) (path : string) (w w' : World) :
  files w' = files w -> fst (make_sono L path w') = fst (make_sono L path w).
Proof.
  intros H. unfold make_sono. rewrite H.
  destruct (decode L (files w path)) as [[data sr] | e]; reflexivity.
Qed.

Lemma eligible_recording_of (L : Libs) (dir : string) (w : World) (fname : string) :
  eligible dir w fname = true ->
  exists content,
    files w (path_join dir fname) = Some content /\
    has_audio_suffix fname = true /\ len content <= MAX_SIZE.
Proof.
  unfold eligible. intros H. apply andb_true_iff in H. destruct H as [Hs Hf].
  destruct (files w (path_join dir fname)) as [content |]; [| discriminate].
  exists content. repeat split; [exact Hs | apply Z.leb_le; exact Hf].
Qed.

(** The loop, from any point on: it returns a list exactly when every file
    with an audio suffix exists and every eligible file gets an answer from
    [make_sono]; the list then grows by the entries of the eligible files,
    in order. *)
Lemma collect_from_spec (L : Libs) (dir : string) (w : World) (names : list string) :
  forall (acc : list recording) (w' : World) (recs : list recording),
    files w' = files w ->
    (fst (collect_from L dir names acc w') = Ret recs <->
     (exists news,
        recs = (acc ++ news)%list /\
        map Ret news = map (recording_of L dir w) (filter (eligible dir w) names)) /\
     (forall fname, In fname names -> has_audio_suffix fname = true ->
                    files w (path_join dir fname) <> None)).
Proof.
  induction names as [|fname rest IH]; intros acc w' recs Hw.
  - simpl. split.
    + intros H. injection H as <-. split; [| intros ? []].
      exists []. rewrite app_nil_r. split; reflexivity.
    + intros [[news [-> Hn]] _]. simpl in Hn.
      destruct news; [| discriminate]. rewrite app_nil_r. reflexivity.
  - cbn [collect_from filter].
    destruct (has_audio_suffix fname) eqn:Es; cbn [negb].
    + rewrite Hw.
      destruct (files w (path_join dir fname)) as [content |] eqn:Ef.
      * destruct (MAX_SIZE <? len content) eqn:Em.
        -- assert (Eel : eligible dir w fname = false).
           { unfold eligible. rewrite Es, Ef. simpl.
             apply Z.leb_gt. apply Z.ltb_lt. exact Em. }
           rewrite Eel.
           rewrite IH by (simpl; exact Hw).
           split; intros [Hn Hall]; (split; [exact Hn |]).
           ++ intros f [<- | Hin] Hsf; [rewrite Ef; discriminate | apply Hall; assumption].
           ++ intros f Hin Hsf. apply Hall; [right; exact Hin | exact Hsf].
        -- assert (Eel : eligible dir w fname = true).
           { unfold eligible. rewrite Es, Ef. simpl.
             apply Z.leb_le. apply Z.ltb_ge. exact Em. }
           rewrite Eel.
           cbn [map]. unfold recording_of at 1. rewrite Ef.
           rewrite <- (make_sono_same_files L (path_join dir fname) w w' Hw).
           pose proof (make_sono_files L (path_join dir fname) w') as Hf.
           destruct (make_sono L (path_join dir fname) w') as [[sono | e] w1];
             cbn [fst snd] in *.
           ++ rewrite IH by (simpl; rewrite Hf; exact Hw).
              split.
              ** intros [[news [-> Hn]] Hall]. split.
                 --- exists (make_recording L fname content sono :: news).
                     split; [rewrite <- app_assoc; reflexivity |].
                     cbn [map]. rewrite Hn. reflexivity.
                 --- intros f [<- | Hin] Hsf;
                       [rewrite Ef; discriminate | apply Hall; assumption].
              ** intros [[news [-> Hn]] Hall]. split.
                 --- destruct news as [|r news]; [discriminate |].
                     cbn [map] in Hn. injection Hn as Hr Hn. subst r.
                     exists news. split; [rewrite <- app_assoc; reflexivity | exact Hn].
                 --- intros f Hin Hsf. apply Hall; [right; exact Hin | exact Hsf].
           ++ split; [discriminate |].
              intros [[news [_ Hn]] _].
              destruct news; discriminate.
      * cbn [fst]. split; [discriminate |].
        intros [_ Hall]. exfalso.
        apply (Hall fname); [left; reflexivity | exact Es | exact Ef].
    + assert (Eel : eligible dir w fname = false)
        by (unfold eligible; rewrite Es; reflexivity).
      rewrite Eel.
      rewrite IH by exact Hw.
      split; intros [Hn Hall]; (split; [exact Hn |]).
      * intros f [<- | Hin] Hsf; [congruence | apply Hall; assumption].
      * intros f Hin Hsf. apply Hall; [right; exact Hin | exact Hsf].
Qed.

(** X9: the recordings do not depend on the order in which the directory
    is listed: the names are sorted first, so two listings with the same
    names give the same entries, the same output and the same error. *)
Theorem collect_recordings_order_independent :
  forall (L : Libs) (audio_dir : string) (l1 l2 : list string) (w : World),
    Permutation l1 l2 ->
    collect_recordings L audio_dir l1 w = collect_recordings L audio_dir l2 w.
Proof.
  intros L dir l1 l2 w Hp. unfold collect_recordings.
  rewrite (sorted_of_permutation l1 l2 Hp). reflexivity.
Qed.

Lemma collect_recordings_order_independent_witness :
  collect_recordings (fixture no_soundfile not_a_wav silent_spec (Ret png_stub))
    "ljud" ["b.wav"; "a.mp3"]%string (world_with "ljud/a.mp3" [Byte.x00] 0 0)
  = collect_recordings (fixture no_soundfile not_a_wav silent_spec (Ret png_stub))
      "ljud" ["a.mp3"; "b.wav"]%string (world_with "ljud/a.mp3" [Byte.x00] 0 0).
Proof.
  apply collect_recordings_order_independent. apply perm_swap.
Defined.

(** X10: the loop returns a list exactly when every listed file with an
    audio suffix exists and [make_sono] answers for every eligible one
    (suffix [.wav] or [.mp3], at most 6 MiB); the list then holds one
    entry per eligible file, in the order of the sorted names: files of
    another suffix or above the size limit leave no entry, and a file
    without sonogram is embedded all the same. *)
Theorem collect_recordings_spec :
  forall (L : Libs) (audio_dir : string) (listing : list string) (w : World)
         (recs : list recording),
    fst (collect_recordings L audio_dir listing w) = Ret recs <->
    map Ret recs
    = map (recording_of L audio_dir w)
          (filter (eligible audio_dir w) (sorted listing)) /\
    (forall fname, In fname listing -> has_audio_suffix fname = true ->
                   files w (path_join audio_dir fname) <> None).
Proof.
  intros L dir listing w recs. unfold collect_recordings.
  rewrite (collect_from_spec L dir w (sorted listing) [] w recs eq_refl).
  split.
  - intros [[news [-> Hn]] Hall]. split; [exact Hn |].
    intros f Hin. apply Hall.
    apply Permutation_in with listing; [apply sorted_perm | exact Hin].
  - intros [Hn Hall]. split; [exists recs; split; [reflexivity | exact Hn] |].
    intros f Hin. apply Hall.
    apply Permutation_in with (sorted listing);
      [apply Permutation_sym, sorted_perm | exact Hin].
Qed.

(** X24: every entry of a collected list comes from a listed file with
    suffix [.wav] or [.mp3] and at most 6 MiB: it carries the size and
    the base64 text of that file, the MIME type of its suffix, and
    coordinates that are both present or both absent. *)
Theorem collected_entries_invariant :
  forall (L : Libs) (audio_dir : string) (listing : list string) (w : World)
         (recs : list recording),
    fst (collect_recordings L audio_dir listing w) = Ret recs ->
    Forall (fun r =>
              exists fname content,
                In fname listing /\
                has_audio_suffix fname = true /\
                files w (path_join audio_dir fname) = Some content /\
                r_id r = xc_id_of fname /\
                r_size r = len content /\ 0 <= r_size r <= MAX_SIZE /\
                r_audio r = b64encode L content /\
                (r_mime r = "audio/wav"%string \/ r_mime r = "audio/mpeg"%string) /\
                (r_lat r = None <-> r_lon r = None)) recs.
Proof.
  intros L dir listing w recs E. unfold collect_recordings in E.
  apply (proj1 (collect_from_spec L dir w (sorted listing) [] w recs eq_refl)) in E.
  destruct E as [[news [-> Hm]] _]. cbn [app].
  apply Forall_forall. intros r Hr.
  apply (in_map Ret) in Hr. rewrite Hm in Hr.
  apply in_map_iff in Hr. destruct Hr as [fname [Hrec Hin]].
  apply filter_In in Hin. destruct Hin as [Hin Hel].
  destruct (eligible_recording_of L dir w fname Hel) as [content [Ef [Hs Hsz]]].
  unfold recording_of in Hrec. rewrite Ef in Hrec.
  destruct (fst (make_sono L (path_join dir fname) w)) as [sono | e];
    [| discriminate].
  injection Hrec as <-.
  exists fname, content. cbn [make_recording r_id r_size r_audio r_mime r_lat r_lon].
  split; [apply Permutation_in with (sorted listing);
          [apply Permutation_sym, sorted_perm | exact Hin] |].
  split; [exact Hs |]. split; [exact Ef |]. split; [reflexivity |].
  split; [reflexivity |].
  split; [split; [unfold len; lia | exact Hsz] |].
  split; [reflexivity |].
  split; [destruct (endswith fname ".wav"); [left | right]; reflexivity |].
  destruct (dict_get XC_COORDS (xc_id_of fname)) as [[la lo] |]; simpl;
    split; intros H; (discriminate || reflexivity).
Qed.

Lemma collected_entries_invariant_witness :
  Forall (fun r => 0 <= r_size r <= MAX_SIZE)
    [make_recording (fixture no_soundfile not_a_wav silent_spec (Ret png_stub))
       "XC1 - caw.mp3" [Byte.x00; Byte.x01] None].
Proof.
  pose proof (collected_entries_invariant
                (fixture no_soundfile not_a_wav silent_spec (Ret png_stub))
                "ljud" ["XC1 - caw.mp3"; "notes.txt"]%string
                (world_with "ljud/XC1 - caw.mp3" [Byte.x00; Byte.x01] 0 0)
                [make_recording
                   (fixture no_soundfile not_a_wav silent_spec (Ret png_stub))
                   "XC1 - caw.mp3" [Byte.x00; Byte.x01] None]
                eq_refl) as H.
  apply Forall_impl with (2 := H).
  intros r [fname [content Hr]]. apply Hr.
Defined.

(** X11: one eligible file that decodes to fewer than 8 samples ends the
    whole loop: no list of recordings is returned, an exception leaves
    it. *)
Theorem short_recording_aborts_collection :
  forall (L : Libs) (audio_dir : string) (listing : list string) (w : World)
         (fname : string) (data : list R) (sr : Z),
    In fname listing ->
    eligible audio_dir w fname = true ->
    decode L (files w (path_join audio_dir fname)) = Ret (data, sr) ->
    len data < 8 ->
    exists e, fst (collect_recordings L audio_dir listing w) = Raise e.
Proof.
  intros L dir listing w fname data sr Hin Hel Hd Hn.
  destruct (fst (collect_recordings L dir listing w)) as [recs | e] eqn:E;
    [| exists e; reflexivity].
  exfalso. unfold collect_recordings in E.
  apply (proj1 (collect_from_spec L dir w (sorted listing) [] w recs eq_refl)) in E.
  destruct E as [[news [_ Hm]] _].
  assert (Hf : In fname (filter (eligible dir w) (sorted listing))).
  { apply filter_In. split; [| exact Hel].
    apply Permutation_in with listing; [apply sorted_perm | exact Hin]. }
  apply (in_map (recording_of L dir w)) in Hf.
  rewrite <- Hm in Hf. apply in_map_iff in Hf. destruct Hf as [r [Hr _]].
  unfold recording_of in Hr.
  destruct (eligible_recording_of L dir w fname Hel) as [content [Ef _]].
  rewrite Ef in Hr.
  unfold make_sono in Hr. rewrite Hd in Hr. cbn [fst] in Hr.
  destruct (render_sono_short L data sr Hn) as [e He].
  rewrite He in Hr. discriminate.
Qed.

Lemma short_recording_aborts_collection_witness :
  exists e,
    fst (collect_recordings
           (fixture (Ret ([[0]; [0]; [0]; [0]]%R, 22050)) not_a_wav
                    silent_spec (Ret png_stub))
           "ljud" ["XC1 - click.wav"]%string
           (world_with "ljud/XC1 - click.wav" [Byte.x00; Byte.x01] 0 0))
    = Raise e.
Proof.
  apply (short_recording_aborts_collection _ _ _ _ "XC1 - click.wav"
           (mean_axis1 [[0]; [0]; [0]; [0]]%R) 22050).
  - left. reflexivity.
  - reflexivity.
  - reflexivity.
  - vm_compute. reflexivity.
Defined.

(** ** File names (lines 105, 112-116) *)

Lemma prefix_app (p s : string) : prefix p (p ++ s) = true.
Proof.
  induction p as [|a p IH]; simpl.
  - destruct s; reflexivity.
  - destruct (ascii_dec a a) as [_ | N]; [exact IH | contradiction].
Qed.

Lemma drop_app (p s : string) : drop (String.length p) (p ++ s) = s.
Proof. induction p as [|a p IH]; simpl; [destruct s; reflexivity | exact IH]. Qed.

Lemma take_app (p s : string) : take (String.length p) (p ++ s) = p.
Proof.
  induction p as [|a p IH]; simpl; [destruct s; reflexivity | rewrite IH; reflexivity].
Qed.

Lemma append_assoc (a b c : string) : ((a ++ b) ++ c = a ++ (b ++ c))%string.
Proof. induction a as [|x a IH]; simpl; [reflexivity | rewrite IH; reflexivity]. Qed.

Lemma append_length (a b : string) :
  String.length (a ++ b) = (String.length a + String.length b)%nat.
Proof. induction a as [|x a IH]; simpl; [reflexivity | rewrite IH; reflexivity]. Qed.

Lemma contains_char_app (c : ascii) (a b : string) :
  contains_char c (a ++ b) = contains_char c a || contains_char c b.
Proof.
  induction a as [|x a IH]; simpl; [reflexivity |].
  rewrite IH. apply orb_assoc.
Qed.


Lemma before_char_app (c : ascii) (a r : string) :
  contains_char c a = false -> before_char c (a ++ String c r) = a.
Proof.
  induction a as [|x a IH]; simpl; intros H.
  - rewrite Ascii.eqb_refl. reflexivity.
  - apply orb_false_iff in H. destruct H as [Hx Ha].
    rewrite Hx, IH by exact Ha. reflexivity.
Qed.


Lemma split_once_skip (sep : string) (x : ascii) (s : string) :
  prefix sep (String x s) = false ->
  split_once sep (String x s)
  = match split_once sep s with
    | Some (b, r) => Some (String x b, r)
    | None => None
    end.
Proof.
  intros H.
  change (split_once sep (String x s))
    with (if prefix sep (String x s)
          then Some (EmptyString, drop (String.length sep) (String x s))
          else match split_once sep s with
               | Some (b, r) => Some (String x b, r)
               | None => None
               end).
  rewrite H. reflexivity.
Qed.

Lemma split_once_app (c : ascii) (sep' a r : string) :
  contains_char c a = false ->
  split_once (String c sep') (a ++ String c sep' ++ r) = Some (a, r).
Proof.
  induction a as [|x a IH]; intros H.
  - change (EmptyString ++ String c sep' ++ r)%string
      with (String c sep' ++ r)%string.
    change (split_once (String c sep') (String c sep' ++ r))
      with (if prefix (String c sep') (String c sep' ++ r)
            then Some (EmptyString,
                       drop (String.length (String c sep')) (String c sep' ++ r))
            else match split_once (String c sep') (sep' ++ r) with
                 | Some (b, r0) => Some (String c b, r0)
                 | None => None
                 end).
    rewrite prefix_app, drop_app. reflexivity.
  - simpl in H. apply orb_false_iff in H. destruct H as [Hx Ha].
    change ((String x a ++ String c sep' ++ r)%string)
      with (String x (a ++ String c sep' ++ r)).
    rewrite split_once_skip.
    + rewrite IH by exact Ha. reflexivity.
    + simpl. destruct (ascii_dec c x) as [-> | N]; [| reflexivity].
      rewrite Ascii.eqb_refl in Hx. discriminate.
Qed.

Lemma rfind_nat_absent (c : ascii) (s : string) :
  contains_char c s = false -> rfind_nat c s = None.
Proof.
  induction s as [|a s IH]; simpl; intros H; [reflexivity |].
  apply orb_false_iff in H. destruct H as [Ha Hs].
  rewrite IH, Ha by exact Hs. reflexivity.
Qed.

Lemma rfind_nat_last (c : ascii) (b r : string) :
  contains_char c r = false ->
  rfind_nat c (b ++ String c r) = Some (String.length b).
Proof.
  intros Hr. induction b as [|x b IH]; simpl.
  - rewrite rfind_nat_absent by exact Hr. rewrite Ascii.eqb_refl. reflexivity.
  - rewrite IH. reflexivity.
Qed.

(** A name [b ++ "." ++ e] without slash, with a character other than a
    dot in [b] and no dot in [e], splits into [b] and the extension. *)
Lemma splitext_name (b e : string) :
  contains_char "/" (b ++ String "." e) = false ->
  contains_char "." e = false ->
  has_other_than "." b = true ->
  splitext (b ++ String "." e) = (b, String "." e).
Proof.
  intros Hsep He Hb. unfold splitext, rfind.
  rewrite (rfind_nat_absent "/") by exact Hsep.
  rewrite rfind_nat_last by exact He.
  replace (-1 <? Z.of_nat (String.length b)) with true
    by (symmetry; apply Z.ltb_lt; lia).
  change (Z.to_nat (-1 + 1)) with 0%nat.
  rewrite Nat2Z.id, Nat.sub_0_r.
  change (drop 0 (b ++ String "." e)) with (b ++ String "." e)%string.
  rewrite take_app, Hb, drop_app. reflexivity.
Qed.

Lemma strip_trimmed (s : string) : is_trimmed s = true -> strip s = s.
Proof.
  unfold is_trimmed, strip. intros H.
  destruct (find (fun ws => prefix ws s) whitespace) eqn:E1; [discriminate |].
  destruct (find (fun ws => endswith s ws) whitespace) eqn:E2; [discriminate |].
  assert (El : lstrip_fuel (String.length s) s = s).
  { destruct (String.length s); cbn [lstrip_fuel];
      [reflexivity | rewrite E1; reflexivity]. }
  rewrite El.
  destruct (String.length s); cbn [rstrip_fuel];
    [reflexivity | rewrite E2; reflexivity].
Qed.

Lemma string_eqb_length (a b : string) :
  (a =? b)%string = true -> String.length a = String.length b.
Proof. intros H. apply String.eqb_eq in H. subst. reflexivity. Qed.

Lemma endswith_cons (a : ascii) (s suffix : string) :
  endswith (String a s) suffix
  = (String a s =? suffix)%string || endswith s suffix.
Proof. reflexivity. Qed.

Lemma endswith_short (t c : string) :
  (String.length t < String.length c)%nat -> endswith t c = false.
Proof.
  induction t as [|z t IH]; intros Ht.
  - destruct c; [simpl in Ht; lia | reflexivity].
  - rewrite endswith_cons.
    destruct (String z t =? c)%string eqn:E;
      [apply string_eqb_length in E; lia |].
    apply IH. simpl in Ht. lia.
Qed.

(** Whether a text ends with a suffix is decided by its last characters. *)
Lemma endswith_app (a b c : string) :
  String.length b = String.length c ->
  endswith (a ++ b) c = (b =? c)%string.
Proof.
  intros Hl. induction a as [|x a IH].
  - change (EmptyString ++ b)%string with b.
    destruct b as [|y b].
    + destruct c; [reflexivity | discriminate].
    + rewrite endswith_cons, endswith_short by (simpl in Hl; lia).
      apply orb_false_r.
  - change (String x a ++ b)%string with (String x (a ++ b)).
    rewrite endswith_cons, IH.
    destruct (String x (a ++ b) =? c)%string eqn:E; [| reflexivity].
    apply string_eqb_length in E. simpl in E. rewrite append_length in E. lia.
Qed.

Lemma has_other_than_app (c : ascii) (a b : string) :
  has_other_than c (a ++ b) = has_other_than c a || has_other_than c b.
Proof.
  induction a as [|x a IH]; simpl; [reflexivity |].
  rewrite IH. apply orb_assoc.
Qed.

(** X12: a file named [ID - Label.wav] (or [.mp3]) is read back as it was
    written: when the ID has no space and the label no white space at its
    ends, the entry has this ID, this label, and the MIME type of the
    suffix.  The label may itself contain dots and [" - "]. *)
Theorem name_convention_round_trip :
  forall (L : Libs) (id label e : string) (content : bytes)
         (sono : option string),
    let fname := (id ++ " - " ++ label ++ String "." e)%string in
    e = "wav"%string \/ e = "mp3"%string ->
    contains_char " " id = false ->
    contains_char "/" fname = false ->
    is_trimmed label = true ->
    has_audio_suffix fname = true /\
    r_id (make_recording L fname content sono) = id /\
    r_fname_label (make_recording L fname content sono) = label /\
    r_mime (make_recording L fname content sono)
    = (if (e =? "wav")%string then "audio/wav" else "audio/mpeg")%string.
Proof.
  intros L id label e content sono fname He Hid Hsep Htrim.
  assert (Ef : fname = ((id ++ " - " ++ label) ++ String "." e)%string).
  { unfold fname. rewrite !append_assoc. reflexivity. }
  assert (Hdot : contains_char "." e = false)
    by (destruct He as [-> | ->]; reflexivity).
  assert (Hwav : endswith fname ".wav" = (e =? "wav")%string).
  { rewrite Ef, endswith_app by (destruct He as [-> | ->]; reflexivity).
    destruct He as [-> | ->]; reflexivity. }
  assert (Hmp3 : endswith fname ".mp3" = (e =? "mp3")%string).
  { rewrite Ef, endswith_app by (destruct He as [-> | ->]; reflexivity).
    destruct He as [-> | ->]; reflexivity. }
  split; [| split; [| split]].
  - unfold has_audio_suffix. rewrite Hwav, Hmp3.
    destruct He as [-> | ->]; reflexivity.
  - cbn [make_recording r_id]. unfold xc_id_of, fname.
    change (" - " ++ label ++ String "." e)%string
      with (String " " ("- " ++ label ++ String "." e)).
    apply before_char_app. exact Hid.
  - cbn [make_recording r_fname_label]. unfold fname_label_of.
    rewrite Ef, splitext_name.
    + cbn [fst]. unfold split1.
      change (id ++ " - " ++ label)%string
        with (id ++ String " " "- " ++ label)%string.
      rewrite split_once_app by exact Hid.
      apply strip_trimmed. exact Htrim.
    + rewrite <- Ef. exact Hsep.
    + exact Hdot.
    + rewrite has_other_than_app. apply orb_true_iff. right. reflexivity.
  - cbn [make_recording r_mime]. rewrite Hwav. reflexivity.
Qed.

Lemma name_convention_round_trip_witness :
  r_fname_label
    (make_recording (fixture no_soundfile not_a_wav silent_spec (Ret png_stub))
       "XC736923 - Hooded Crow - alarm.mp3" [] None)
  = "Hooded Crow - alarm"%string.
Proof.
  apply (name_convention_round_trip
           (fixture no_soundfile not_a_wav silent_spec (Ret png_stub))
           "XC736923" "Hooded Crow - alarm" "mp3" [] None).
  - right. reflexivity.
  - reflexivity.
  - reflexivity.
  - reflexivity.
Defined.




(** ** Icons (lines 75-87) *)

Lemma data_uri_not_empty (m b : string) :
  ("data:" ++ m ++ ";base64," ++ b)%string <> EmptyString.
Proof. discriminate. Qed.

Lemma b64_icon_missing (L : Libs) (here filename : string) (d : Disk) :
  path_exists d (path_join here filename) = false ->
  _b64_icon L here filename d = Ret EmptyString.
Proof. intros H. unfold _b64_icon. rewrite H. reflexivity. Qed.

Lemma b64_icon_readable (L : Libs) (here filename : string) (d : Disk)
      (content : bytes) :
  files (disk_world d) (path_join here filename) = Some content ->
  _b64_icon L here filename d
  = Ret ("data:"
         ++ match dict_get icon_mimes (lower (after_last "." filename)) with
            | Some m => m
            | None => "image/png"
            end
         ++ ";base64," ++ b64encode L content)%string.
Proof.
  intros H. unfold _b64_icon, path_exists, open_rb. rewrite H. reflexivity.
Qed.

Lemma b64_icon_unopenable (L : Libs) (here filename : string) (d : Disk)
      (e : exn) :
  files (disk_world d) (path_join here filename) = None ->
  unopenable d (path_join here filename) = Some e ->
  _b64_icon L here filename d = Raise e.
Proof.
  intros H1 H2. unfold _b64_icon, path_exists, open_rb.
  rewrite H1, H2. reflexivity.
Qed.

Lemma path_exists_false (d : Disk) (path : string) :
  path_exists d path = false <->
  files (disk_world d) path = None /\ unopenable d path = None.
Proof.
  unfold path_exists.
  destruct (files (disk_world d) path), (unopenable d path); split;
    try discriminate; try (intros [? ?]; discriminate); auto.
Qed.

(** The three outcomes of [_b64_icon], by what is at the path. *)
Lemma b64_icon_cases (L : Libs) (here filename : string) (d : Disk) :
  (path_exists d (path_join here filename) = false /\
   _b64_icon L here filename d = Ret EmptyString) \/
  (exists content m b,
      files (disk_world d) (path_join here filename) = Some content /\
      path_exists d (path_join here filename) = true /\
      _b64_icon L here filename d = Ret ("data:" ++ m ++ ";base64," ++ b)%string) \/
  (exists e,
      files (disk_world d) (path_join here filename) = None /\
      unopenable d (path_join here filename) = Some e /\
      path_exists d (path_join here filename) = true /\
      _b64_icon L here filename d = Raise e).
Proof.
  destruct (files (disk_world d) (path_join here filename)) as [content |] eqn:Ef.
  - right. left. exists content. eexists. eexists.
    split; [reflexivity |].
    split; [unfold path_exists; rewrite Ef; reflexivity |].
    apply b64_icon_readable. exact Ef.
  - destruct (unopenable d (path_join here filename)) as [e |] eqn:Eu.
    + right. right. exists e.
      split; [reflexivity |]. split; [reflexivity |].
      split; [unfold path_exists; rewrite Ef, Eu; reflexivity |].
      apply b64_icon_unopenable; assumption.
    + left. assert (H : path_exists d (path_join here filename) = false)
        by (unfold path_exists; rewrite Ef, Eu; reflexivity).
      split; [exact H | apply b64_icon_missing; exact H].
Qed.

(** X14: [_b64_icon] returns the empty string exactly when nothing exists
    at the path; on a file that can be read it returns a data URI of the
    content whose MIME type is one of image/png, image/x-icon and
    image/svg+xml; and on a path that exists but does not open (a
    directory, as for an empty file name) the error of [open] leaves the
    function. *)
Theorem b64_icon_empty_iff_missing :
  forall (L : Libs) (here filename : string) (d : Disk),
    let path := path_join here filename in
    (_b64_icon L here filename d = Ret EmptyString <->
     path_exists d path = false) /\
    (forall content,
        files (disk_world d) path = Some content ->
        exists m,
          In m ["image/png"; "image/x-icon"; "image/svg+xml"]%string /\
          _b64_icon L here filename d
          = Ret ("data:" ++ m ++ ";base64," ++ b64encode L content)%string) /\
    (forall e,
        _b64_icon L here filename d = Raise e <->
        files (disk_world d) path = None /\ unopenable d path = Some e).
Proof.
  intros L here filename d path. unfold path.
  split; [| split].
  - split; [| apply b64_icon_missing].
    intros H.
    destruct (b64_icon_cases L here filename d)
      as [[E _] | [[c [m [b [_ [_ E]]]]] | [e [_ [_ [_ E]]]]]].
    + exact E.
    + rewrite E in H. injection H as H. discriminate.
    + rewrite E in H. discriminate.
  - intros content Hc.
    rewrite (b64_icon_readable L here filename d content Hc).
    destruct (dict_get icon_mimes (lower (after_last "." filename))) as [m |] eqn:E.
    + exists m. split; [| reflexivity].
      unfold icon_mimes, dict_get in E.
      repeat match type of E with
             | (if ?c then _ else _) = _ => destruct c
             end;
        try discriminate; injection E as <-; simpl; auto.
    + exists "image/png"%string. split; [left; reflexivity | reflexivity].
  - intros e. split.
    + intros H.
      destruct (b64_icon_cases L here filename d)
        as [[_ E] | [[c [m [b [_ [_ E]]]]] | [e' [Hf [Hu [_ E]]]]]].
      * rewrite E in H. discriminate.
      * rewrite E in H. discriminate.
      * rewrite E in H. injection H as <-. split; assumption.
    + intros [Hf Hu]. apply b64_icon_unopenable; assumption.
Qed.

(** X15: the extension of an icon is what follows the last dot, compared
    without regard to ASCII case: [.ICO] and [.Svg] are served as icon and
    SVG, and any other extension as PNG. *)
Theorem b64_icon_mime_by_extension :
  forall (L : Libs) (here stem ext : string) (d : Disk) (content : bytes),
    let filename := (stem ++ String "." ext)%string in
    contains_char "." ext = false ->
    files (disk_world d) (path_join here filename) = Some content ->
    _b64_icon L here filename d
    = Ret ("data:"
           ++ (if (lower ext =? "ico")%string then "image/x-icon"
               else if (lower ext =? "svg")%string then "image/svg+xml"
               else "image/png")
           ++ ";base64," ++ b64encode L content)%string.
Proof.
  intros L here stem ext d content filename Hdot Hf.
  rewrite (b64_icon_readable L here filename d content Hf).
  unfold after_last, filename. rewrite rfind_nat_last by exact Hdot.
  replace (drop (S (String.length stem)) (stem ++ String "." ext)) with ext.
  - unfold icon_mimes, dict_get.
    rewrite (String.eqb_sym "png"), (String.eqb_sym "ico"), (String.eqb_sym "svg").
    destruct (lower ext =? "png")%string eqn:E1.
    + apply String.eqb_eq in E1. rewrite E1. reflexivity.
    + destruct (lower ext =? "ico")%string; [reflexivity |].
      destruct (lower ext =? "svg")%string; reflexivity.
  - clear. induction stem as [|x stem IH]; simpl; [reflexivity | exact IH].
Qed.

Lemma b64_icon_mime_by_extension_witness :
  _b64_icon (fixture no_soundfile not_a_wav silent_spec (Ret png_stub))
    "/site" "Logo.SVG" (plain_disk (world_with "/site/Logo.SVG" [Byte.x3c] 0 0))
  = Ret "data:image/svg+xml;base64,iVBORw0KGgo="%string.
Proof.
  apply (b64_icon_mime_by_extension
           (fixture no_soundfile not_a_wav silent_spec (Ret png_stub))
           "/site" "Logo" "SVG"
           (plain_disk (world_with "/site/Logo.SVG" [Byte.x3c] 0 0))
           [Byte.x3c]).
  - reflexivity.
  - reflexivity.
Defined.

(** X16: when the line of the 32-pixel icon does not raise, the Apple touch
    icon is the 180-pixel icon whenever that file can be read and the
    192-pixel one (or the error of opening it) when nothing exists at the
    path of the 180-pixel one; it is empty exactly when nothing exists at
    either path; and an error of opening the 180-pixel icon ends the
    script before the name is bound. *)
Theorem ICON_APPLE_fallback :
  forall (L : Libs) (here : string) (d : Disk) (i32 : string),
    _b64_icon L here "icon-32.png" d = Ret i32 ->
    (forall c180,
        files (disk_world d) (path_join here "icon-180.png") = Some c180 ->
        ICON_APPLE L here d = ICON_180 L here d /\
        ICON_APPLE L here d <> Ret EmptyString) /\
    (path_exists d (path_join here "icon-180.png") = false ->
     ICON_APPLE L here d = _b64_icon L here "icon-192.png" d) /\
    (forall e,
        ICON_180 L here d = Raise e -> ICON_APPLE L here d = Raise e) /\
    (ICON_APPLE L here d = Ret EmptyString <->
     path_exists d (path_join here "icon-180.png") = false /\
     path_exists d (path_join here "icon-192.png") = false).
Proof.
  intros L here d i32 H32.
  unfold ICON_APPLE, ICON_180. rewrite H32.
  destruct (b64_icon_cases L here "icon-180.png" d)
    as [[X E] | [[c [m [b [Hf [X E]]]]] | [e [Hf [Hu [X E]]]]]];
    rewrite E, X; cbn [bind str_or String.eqb append].
  - split; [intros c Hc; apply path_exists_false in X; destruct X as [X _];
            rewrite X in Hc; discriminate |].
    split; [reflexivity |].
    split; [discriminate |].
    split.
    + intros H. split; [reflexivity |].
      destruct (b64_icon_cases L here "icon-192.png" d)
        as [[Y _] | [[c' [m' [b' [_ [_ E']]]]] | [e' [_ [_ [_ E']]]]]].
      * exact Y.
      * rewrite E' in H. injection H as H. discriminate.
      * rewrite E' in H. discriminate.
    + intros [_ Y]. apply b64_icon_missing. exact Y.
  - split; [intros _ _; split; [reflexivity | intros H; injection H as H; discriminate] |].
    split; [discriminate |].
    split; [discriminate |].
    split; [intros H; injection H as H; discriminate | intros [H _]; discriminate].
  - split; [intros c Hc; rewrite Hf in Hc; discriminate |].
    split; [discriminate |].
    split; [intros e' H; exact H |].
    split; [discriminate | intros [H _]; discriminate].
Qed.

Lemma b64_icon_empty_iff_missing_witness :
  _b64_icon (fixture no_soundfile not_a_wav silent_spec (Ret png_stub))
    "/site" "icon-32.png" (plain_disk (world_with "/site/logo.png" [Byte.x89] 0 0))
  = Ret EmptyString.
Proof.
  apply (b64_icon_empty_iff_missing
           (fixture no_soundfile not_a_wav silent_spec (Ret png_stub))
           "/site" "icon-32.png"
           (plain_disk (world_with "/site/logo.png" [Byte.x89] 0 0))).
  reflexivity.
Defined.

Lemma ICON_APPLE_fallback_witness :
  ICON_APPLE (fixture no_soundfile not_a_wav silent_spec (Ret png_stub))
    "/site" (plain_disk (world_with "/site/icon-192.png" [Byte.x89] 0 0))
  = Ret "data:image/png;base64,iVBORw0KGgo="%string.
Proof.
  destruct (ICON_APPLE_fallback
              (fixture no_soundfile not_a_wav silent_spec (Ret png_stub))
              "/site" (plain_disk (world_with "/site/icon-192.png" [Byte.x89] 0 0))
              EmptyString)
    as [_ [H _]].
  - reflexivity.
  - rewrite H; reflexivity.
Defined.

(** An empty file name is the directory of the script: it exists, and
    opening it raises. *)
Example b64_icon_of_directory :
  _b64_icon (fixture no_soundfile not_a_wav silent_spec (Ret png_stub))
    "/site" "" (disk_with_dir (world_with "/site/icon-32.png" [Byte.x89] 0 0) "/site/")
  = Raise (OSError "[Errno 21] Is a directory").
Proof. reflexivity. Qed.

(** A directory in the place of the 32-pixel icon ends the script at line
    86: the Apple touch icon is never bound. *)
Example ICON_APPLE_after_failure :
  ICON_APPLE (fixture no_soundfile not_a_wav silent_spec (Ret png_stub))
    "/site" (disk_with_dir (world_with "/site/icon-180.png" [Byte.x89] 0 0)
                           "/site/icon-32.png")
  = Raise (OSError "[Errno 21] Is a directory").
Proof. reflexivity. Qed.

(** ** Filter chips (lines 1709, 1728-1738) *)

Lemma set_has_In (x : string) (s : list string) :
  set_has x s = true <-> In x s.
Proof.
  unfold set_has. rewrite existsb_exists. split.
  - intros [y [Hy E]]. apply String.eqb_eq in E. subst. exact Hy.
  - intros H. exists x. split; [exact H | apply String.eqb_refl].
Qed.

Lemma set_delete_In (x y : string) (s : list string) :
  In y (set_delete x s) <-> In y s /\ y <> x.
Proof.
  unfold set_delete. rewrite filter_In, negb_true_iff, String.eqb_neq. tauto.
Qed.

Lemma set_delete_NoDup (x : string) (s : list string) :
  NoDup s -> NoDup (set_delete x s).
Proof. intros H. unfold set_delete. apply NoDup_filter. exact H. Qed.

Lemma set_delete_absent (x : string) (s : list string) :
  ~ In x s -> set_delete x s = s.
Proof.
  induction s as [|y s IH]; simpl; intros H; [reflexivity |].
  destruct (String.eqb_spec y x) as [-> | N]; simpl.
  - exfalso. apply H. left. reflexivity.
  - rewrite IH; [reflexivity | intros Hin; apply H; right; exact Hin].
Qed.

Lemma set_add_NoDup (x : string) (s : list string) :
  NoDup s -> NoDup (set_add x s).
Proof.
  intros H. unfold set_add. destruct (set_has x s) eqn:E; [exact H |].
  apply NoDup_app; [exact H | repeat constructor; intros [] |].
  intros y Hy [<- | []].
  apply set_has_In in Hy. congruence.
Qed.

Lemma set_add_In (x y : string) (s : list string) :
  In y (set_add x s) <-> In y s \/ y = x.
Proof.
  unfold set_add. destruct (set_has x s) eqn:E.
  - apply set_has_In in E. split; [tauto | intros [H | ->]; assumption].
  - rewrite in_app_iff. simpl. split; [intros [H | [<- | []]] | intros [H | ->]]; auto.
Qed.

Lemma set_has_absent (x : string) (s : list string) :
  ~ In x s -> set_has x s = false.
Proof. intros H. apply not_true_is_false. rewrite set_has_In. exact H. Qed.

Lemma set_add_absent (x : string) (s : list string) :
  ~ In x s -> set_add x s = (s ++ [x])%list.
Proof. intros H. unfold set_add. rewrite set_has_absent by exact H. reflexivity. Qed.

Lemma filter_chip_click_inv (fid : string) (s : list string) :
  NoDup s ->
  let s' := filter_chip_click fid s in
  s' <> [] /\ NoDup s' /\ (In "all"%string s' -> s' = ["all"%string]).
Proof.
  intros Hnd. unfold filter_chip_click.
  destruct (String.eqb_spec fid "all") as [-> | Hfid].
  - simpl. split; [discriminate |]. split; [repeat constructor; intros [] | trivial].
  - set (s1 := set_delete "all" s).
    assert (H1 : NoDup s1) by (apply set_delete_NoDup; exact Hnd).
    assert (A1 : ~ In "all"%string s1)
      by (unfold s1; rewrite set_delete_In; tauto).
    set (s2 := if set_has fid s1 then set_delete fid s1 else set_add fid s1).
    assert (H2 : NoDup s2).
    { unfold s2. destruct (set_has fid s1);
        [apply set_delete_NoDup | apply set_add_NoDup]; exact H1. }
    assert (A2 : ~ In "all"%string s2).
    { unfold s2. destruct (set_has fid s1).
      - rewrite set_delete_In. tauto.
      - rewrite set_add_In. intros [H | H]; [contradiction | congruence]. }
    cbv zeta. destruct s2 as [|y s2'] eqn:E2.
    + simpl. split; [discriminate |].
      split; [repeat constructor; intros [] | trivial].
    + simpl. split; [discriminate |]. split; [exact H2 |].
      intros H. contradiction.
Qed.

(** X17: whatever chips are clicked, in whatever order, the set of active
    filters is never empty, and ['all'] is never active together with
    another filter. *)
Theorem active_filters_invariant :
  forall fids : list string,
    let s := filter_chip_clicks fids activeFilters_init in
    s <> [] /\ NoDup s /\ (In "all"%string s -> s = ["all"%string]).
Proof.
  intros fids. unfold filter_chip_clicks.
  assert (H : forall s0,
             s0 <> [] /\ NoDup s0 /\ (In "all"%string s0 -> s0 = ["all"%string]) ->
             let s := fold_left (fun s fid => filter_chip_click fid s) fids s0 in
             s <> [] /\ NoDup s /\ (In "all"%string s -> s = ["all"%string])).
  { induction fids as [|fid fids IH]; intros s0 H0; simpl; [exact H0 |].
    apply IH. apply filter_chip_click_inv. apply H0. }
  apply H. unfold activeFilters_init.
  split; [discriminate |]. split; [repeat constructor; intros [] | trivial].
Qed.

Lemma set_delete_readd (x : string) (s : list string) :
  NoDup s -> In x s -> Permutation (set_delete x s ++ [x]) s.
Proof.
  induction s as [|y s IH]; intros Hnd Hin; [contradiction |].
  inversion Hnd as [|? ? Hy Hs]; subst.
  simpl. destruct (String.eqb_spec y x) as [-> | N]; simpl.
  - rewrite set_delete_absent by exact Hy.
    apply Permutation_sym, Permutation_cons_append.
  - apply perm_skip. apply IH; [exact Hs |].
    destruct Hin as [E | Hin]; [congruence | exact Hin].
Qed.

Lemma set_delete_all_gone (x : string) (s : list string) :
  NoDup s -> In x s -> set_delete x s = [] -> s = [x].
Proof.
  intros Hnd Hin E.
  pose proof (set_delete_readd x s Hnd Hin) as Hp. rewrite E in Hp. simpl in Hp.
  apply Permutation_length_1_inv in Hp. exact Hp.
Qed.

(** X18: clicking a chip other than ['all'] twice gives back the
    selection there was (the same filters; a re-added one is last in the
    set). *)
Theorem filter_chip_double_click :
  forall (fid : string) (s : list string),
    s <> [] -> NoDup s -> (In "all"%string s -> s = ["all"%string]) ->
    fid <> "all"%string ->
    Permutation (filter_chip_click fid (filter_chip_click fid s)) s.
Proof.
  intros fid s Hne Hnd Hall Hfid.
  assert (Ef : (fid =? "all")%string = false) by (apply String.eqb_neq; exact Hfid).
  assert (Hstep : forall t, ~ In "all"%string t ->
            filter_chip_click fid t
            = let t2 := if set_has fid t then set_delete fid t else set_add fid t in
              if Nat.eqb (length t2) 0 then set_add "all" t2 else t2).
  { intros t Ht. unfold filter_chip_click. rewrite Ef.
    rewrite (set_delete_absent "all" t Ht). reflexivity. }
  destruct (in_dec string_dec "all"%string s) as [Ha | Ha].
  - rewrite (Hall Ha).
    assert (E1 : filter_chip_click fid ["all"%string] = [fid]).
    { unfold filter_chip_click. rewrite Ef.
      unfold set_delete. cbn [filter String.eqb Ascii.eqb Bool.eqb negb].
      reflexivity. }
    rewrite E1.
    assert (Hna : ~ In "all"%string [fid]) by (simpl; intuition congruence).
    rewrite (Hstep _ Hna). cbv zeta.
    unfold set_has, set_delete. cbn [existsb filter].
    rewrite String.eqb_refl. reflexivity.
  - rewrite (Hstep s Ha). cbv zeta.
    destruct (set_has fid s) eqn:Eh.
    + apply set_has_In in Eh.
      destruct (set_delete fid s) as [|y t] eqn:Ed.
      * cbn [length Nat.eqb]. rewrite (set_delete_all_gone fid s Hnd Eh Ed).
        rewrite set_add_absent by (intros []). cbn [app].
        unfold filter_chip_click. rewrite Ef.
        unfold set_delete. cbn [filter String.eqb Ascii.eqb Bool.eqb negb].
        reflexivity.
      * cbn [length Nat.eqb].
        assert (Hna : ~ In "all"%string (y :: t))
          by (rewrite <- Ed, set_delete_In; tauto).
        assert (Hnf : ~ In fid (y :: t))
          by (rewrite <- Ed, set_delete_In; tauto).
        rewrite (Hstep _ Hna). cbv zeta.
        rewrite (set_has_absent fid (y :: t) Hnf).
        rewrite (set_add_absent fid (y :: t) Hnf).
        cbn [app length Nat.eqb].
        change (y :: (t ++ [fid])%list) with ((y :: t) ++ [fid])%list.
        rewrite <- Ed. apply (set_delete_readd fid s Hnd Eh).
    + assert (Hnf : ~ In fid s) by (rewrite <- set_has_In; congruence).
      rewrite (set_add_absent fid s Hnf).
      destruct s as [|y t]; [contradiction |].
      cbn [app length Nat.eqb].
      change (y :: (t ++ [fid])%list) with ((y :: t) ++ [fid])%list.
      assert (Hna : ~ In "all"%string ((y :: t) ++ [fid])).
      { rewrite in_app_iff. simpl. intros [H | [H | []]]; [contradiction | congruence]. }
      rewrite (Hstep _ Hna). cbv zeta.
      replace (set_has fid ((y :: t) ++ [fid])) with true
        by (symmetry; apply set_has_In; rewrite in_app_iff; right; left; reflexivity).
      assert (Edel : set_delete fid ((y :: t) ++ [fid]) = y :: t).
      { unfold set_delete. rewrite filter_app.
        change (filter (fun y0 => negb (y0 =? fid)%string) [fid])
          with (if negb (fid =? fid)%string then [fid] else []).
        rewrite String.eqb_refl. cbn [negb]. rewrite app_nil_r.
        apply (set_delete_absent fid (y :: t) Hnf). }
      rewrite Edel. cbn [length Nat.eqb]. apply Permutation_refl.
Qed.

Lemma filter_chip_double_click_witness :
  Permutation
    (filter_chip_click "real" (filter_chip_click "real" ["real"; "cat_alarm"]%string))
    ["real"; "cat_alarm"]%string.
Proof.
  apply filter_chip_double_click.
  - discriminate.
  - repeat constructor; simpl; intuition discriminate.
  - simpl. intuition discriminate.
  - discriminate.
Defined.

(** ** Dragging a row (lines 1842-1851) *)

Lemma findIndex_from_found {A : Type} (p : A -> bool) (a : list A) :
  forall i,
    (exists x, In x a /\ p x = true) ->
    exists n y,
      findIndex_from p a i = i + Z.of_nat n /\
      nth_error a n = Some y /\ p y = true /\
      (forall m z, (m < n)%nat -> nth_error a m = Some z -> p z = false).
Proof.
  induction a as [|x a IH]; intros i [x0 [Hin Hp]]; [contradiction |].
  simpl. destruct (p x) eqn:E.
  - exists 0%nat, x. repeat split; [lia | exact E | intros m z Hm; lia].
  - destruct Hin as [-> | Hin]; [congruence |].
    destruct (IH (i + 1) (ex_intro _ x0 (conj Hin Hp))) as [n [y [H1 [H2 [H3 H4]]]]].
    exists (S n), y. repeat split; [lia | exact H2 | exact H3 |].
    intros [|m] z Hm Hz; simpl in Hz.
    + injection Hz as <-. exact E.
    + apply (H4 m z); [lia | exact Hz].
Qed.

Lemma splice_start_inside (n len : nat) :
  (n <= len)%nat -> splice_start (Z.of_nat n) len = n.
Proof.
  intros H. unfold splice_start.
  replace (Z.of_nat n <? 0) with false by (symmetry; apply Z.ltb_ge; lia).
  rewrite Nat2Z.id. lia.
Qed.

Lemma nth_error_split_at {A : Type} (a : list A) (i : nat) (x : A) :
  nth_error a i = Some x -> a = (firstn i a ++ x :: skipn (S i) a)%list.
Proof.
  revert i. induction a as [|y a IH]; intros [|i] H; simpl in *; try discriminate.
  - injection H as ->. reflexivity.
  - f_equal. apply IH. exact H.
Qed.

Lemma splice_remove1_perm {A : Type} (start : Z) (a : list A) (m : A) (rest : list A) :
  splice_remove1 start a = (Some m, rest) -> Permutation (m :: rest) a.
Proof.
  unfold splice_remove1. intros H. injection H as Hm <-.
  set (i := splice_start start (length a)) in *.
  apply perm_trans with (firstn i a ++ m :: skipn (S i) a)%list;
    [apply Permutation_middle |].
  rewrite <- (nth_error_split_at a i m Hm). apply Permutation_refl.
Qed.

Lemma splice_insert_perm {A : Type} (start : Z) (x : A) (a : list A) :
  Permutation (splice_insert start x a) (x :: a).
Proof.
  unfold splice_insert. apply Permutation_sym.
  rewrite <- (firstn_skipn (splice_start start (length a)) a) at 1.
  apply Permutation_middle.
Qed.

Lemma performDrop_perm {item : Type} (id : item -> string)
      (all filteredItems : list item) (fromIdx toIdx : Z) (order : list string) :
  performDrop id all filteredItems fromIdx toIdx = Some order ->
  Permutation order (map id all).
Proof.
  unfold performDrop.
  destruct (js_get filteredItems fromIdx) as [f |]; [| discriminate].
  destruct (js_get filteredItems toIdx) as [t |]; [| discriminate].
  destruct (splice_remove1 _ all) as [[m |] all1] eqn:Er; [| discriminate].
  intros H. injection H as <-.
  apply Permutation_map.
  apply perm_trans with (m :: all1); [apply splice_insert_perm |].
  apply (splice_remove1_perm _ all m all1 Er).
Qed.

(** X19: a drop never loses or duplicates a row: the order that is saved
    holds the ids of all rows, each as often as before. *)
Theorem performDrop_keeps_rows :
  forall (item : Type) (id : item -> string) (all filteredItems : list item)
         (fromIdx toIdx : Z) (order : list string),
    performDrop id all filteredItems fromIdx toIdx = Some order ->
    Permutation order (map id all).
Proof.
  intros item id all filtered fromIdx toIdx order.
  apply performDrop_perm.
Qed.

Lemma performDrop_keeps_rows_witness :
  Permutation ["b"; "c"; "a"; "d"]%string
              (map (fun x : string => x) ["a"; "b"; "c"; "d"]%string).
Proof.
  apply (performDrop_keeps_rows string (fun x => x)
           ["a"; "b"; "c"; "d"]%string ["a"; "b"; "c"; "d"]%string 0 3).
  reflexivity.
Defined.

Lemma NoDup_map_nth_error {A B : Type} (f : A -> B) (a : list A) (i j : nat) (x y : A) :
  NoDup (map f a) ->
  nth_error a i = Some x -> nth_error a j = Some y -> f x = f y -> i = j.
Proof.
  intros Hnd Hi Hj E.
  apply (proj1 (NoDup_nth_error (map f a)) Hnd).
  - rewrite length_map. apply nth_error_Some. congruence.
  - rewrite !nth_error_map, Hi, Hj. simpl. congruence.
Qed.

(** X20: with distinct ids, dropping a row on another one puts it
    directly above that one and leaves the order of all other rows as it
    was. *)
Theorem performDrop_places_above_target :
  forall (item : Type) (id : item -> string) (all filteredItems : list item)
         (fromIdx toIdx : Z) (from to : item),
    NoDup (map id all) ->
    js_get filteredItems fromIdx = Some from ->
    js_get filteredItems toIdx = Some to ->
    In from all -> In to all ->
    id from <> id to ->
    exists l1 l2,
      filter (fun k => negb (k =? id from)%string) (map id all)
      = (l1 ++ id to :: l2)%list /\
      performDrop id all filteredItems fromIdx toIdx
      = Some (l1 ++ id from :: id to :: l2)%list.
Proof.
  intros item id all filtered fromIdx toIdx from to Hnd Hf Ht Hinf Hint Hne.
  unfold performDrop. rewrite Hf, Ht.
  (* the row that is removed *)
  destruct (findIndex_from_found (fun x => (id x =? id from)%string) all 0)
    as [i [m [Ei [Hm [Hpm _]]]]].
  { exists from. split; [exact Hinf | apply String.eqb_refl]. }
  apply String.eqb_eq in Hpm.
  assert (Hi : (i < length all)%nat) by (apply nth_error_Some; congruence).
  unfold findIndex. rewrite Ei. unfold splice_remove1.
  change (0 + Z.of_nat i) with (Z.of_nat i).
  rewrite splice_start_inside by lia. rewrite Hm.
  set (all1 := (firstn i all ++ skipn (S i) all)%list).
  pose proof (nth_error_split_at all i m Hm) as Hall.
  (* its id occurs nowhere else *)
  assert (Hids : filter (fun k => negb (k =? id from)%string) (map id all)
                 = map id all1).
  { rewrite Hall at 1. rewrite map_app, filter_app. cbn [map filter].
    rewrite Hpm, String.eqb_refl. cbn [negb].
    unfold all1. rewrite map_app.
    assert (Hout : forall l, (forall x, In x l -> id x <> id from) ->
              filter (fun k => negb (k =? id from)%string) (map id l) = map id l).
    { induction l as [|x l IHl]; intros Hl; [reflexivity |].
      cbn [map filter].
      replace (id x =? id from)%string with false
        by (symmetry; apply String.eqb_neq; apply Hl; left; reflexivity).
      cbn [negb]. rewrite IHl; [reflexivity |].
      intros z Hz. apply Hl. right. exact Hz. }
    rewrite !Hout; [reflexivity | |].
    - intros x Hx E. apply In_nth_error in Hx. destruct Hx as [j Hj].
      rewrite nth_error_skipn in Hj.
      assert (S i + j = i)%nat; [| lia].
      apply (NoDup_map_nth_error id all _ _ x m Hnd Hj Hm). congruence.
    - intros x Hx E. apply In_nth_error in Hx. destruct Hx as [j Hj].
      assert (Hjl : (j < length (firstn i all))%nat)
        by (apply nth_error_Some; congruence).
      rewrite length_firstn in Hjl.
      rewrite nth_error_firstn in Hj.
      replace (j <? i)%nat with true in Hj by (symmetry; apply Nat.ltb_lt; lia).
      assert (j = i); [| lia].
      apply (NoDup_map_nth_error id all _ _ x m Hnd Hj Hm). congruence. }
  (* the target is still there *)
  assert (Hin1 : In to all1).
  { rewrite Hall in Hint. apply in_app_or in Hint. unfold all1.
    apply in_or_app. destruct Hint as [H | [H | H]]; [left; exact H | | right; exact H].
    subst m. congruence. }
  destruct (findIndex_from_found (fun x => (id x =? id to)%string) all1 0)
    as [j [t' [Ej [Ht' [Hpt _]]]]].
  { exists to. split; [exact Hin1 | apply String.eqb_refl]. }
  apply String.eqb_eq in Hpt.
  assert (Hj : (j < length all1)%nat) by (apply nth_error_Some; congruence).
  rewrite Ej. change (0 + Z.of_nat j) with (Z.of_nat j).
  unfold splice_insert. rewrite splice_start_inside by lia.
  pose proof (nth_error_split_at all1 j t' Ht') as Hall1.
  exists (map id (firstn j all1)), (map id (skipn (S j) all1)).
  split.
  - rewrite Hids. rewrite Hall1 at 1. rewrite map_app. cbn [map].
    rewrite Hpt. reflexivity.
  - f_equal. rewrite map_app. cbn [map]. f_equal. rewrite Hpm. f_equal.
    assert (Es : skipn j all1 = t' :: skipn (S j) all1).
    { clear - Ht'. revert j Ht'. induction all1 as [|x l IH]; intros [|j] H;
        simpl in *; try discriminate.
      - injection H as ->. reflexivity.
      - apply IH. exact H. }
    rewrite Es. cbn [map]. rewrite Hpt. reflexivity.
Qed.

Lemma performDrop_places_above_target_witness :
  performDrop (fun x : string => x) ["a"; "b"; "c"; "d"]%string
              ["a"; "b"; "c"; "d"]%string 0 3
  = Some ["b"; "c"; "a"; "d"]%string.
Proof.
  destruct (performDrop_places_above_target string (fun x => x)
              ["a"; "b"; "c"; "d"]%string ["a"; "b"; "c"; "d"]%string 0 3
              "a"%string "d"%string) as [l1 [l2 [E1 E2]]].
  - repeat constructor; simpl; intuition discriminate.
  - reflexivity.
  - reflexivity.
  - left. reflexivity.
  - right; right; right; left. reflexivity.
  - discriminate.
  - reflexivity.
Defined.

(** ** The saved order (lines 1776-1781) *)

Lemma insert_by_key_perm {A : Type} (key : A -> Z) (x : A) (l : list A) :
  Permutation (x :: l) (insert_by_key key x l).
Proof.
  induction l as [|y r IH]; simpl.
  - apply Permutation_refl.
  - destruct (key x <=? key y).
    + apply Permutation_refl.
    + apply perm_trans with (y :: x :: r); [apply perm_swap | apply perm_skip, IH].
Qed.

Lemma sort_by_key_perm {A : Type} (key : A -> Z) (l : list A) :
  Permutation l (sort_by_key key l).
Proof.
  induction l as [|x r IH]; simpl.
  - apply perm_nil.
  - apply perm_trans with (x :: sort_by_key key r);
      [apply perm_skip, IH | apply insert_by_key_perm].
Qed.

Lemma insert_by_key_sorted {A : Type} (key : A -> Z) (x : A) (l : list A) :
  StronglySorted (fun a b => key a <= key b) l ->
  StronglySorted (fun a b => key a <= key b) (insert_by_key key x l).
Proof.
  induction 1 as [|y r Hs IH Hy]; simpl.
  - repeat constructor.
  - destruct (key x <=? key y) eqn:E.
    + apply Z.leb_le in E.
      constructor; [constructor; assumption |].
      constructor; [exact E |].
      apply Forall_impl with (2 := Hy). intros z Hz. lia.
    + apply Z.leb_gt in E.
      constructor; [exact IH |].
      apply Permutation_Forall with (x :: r); [apply insert_by_key_perm |].
      constructor; [lia | exact Hy].
Qed.

Lemma sort_by_key_sorted {A : Type} (key : A -> Z) (l : list A) :
  StronglySorted (fun a b => key a <= key b) (sort_by_key key l).
Proof.
  induction l as [|x r IH]; simpl; [constructor | apply insert_by_key_sorted, IH].
Qed.

Lemma sort_by_key_ext {A : Type} (key key' : A -> Z) (l : list A) :
  (forall x, In x l -> key x = key' x) ->
  sort_by_key key l = sort_by_key key' l.
Proof.
  induction l as [|x r IH]; intros H; [reflexivity |].
  simpl. rewrite <- IH by (intros z Hz; apply H; right; exact Hz).
  assert (Hx : key x = key' x) by (apply H; left; reflexivity).
  assert (Hr : forall z, In z (sort_by_key key r) -> key z = key' z).
  { intros z Hz. apply H. right.
    apply Permutation_in with (sort_by_key key r);
      [apply Permutation_sym, sort_by_key_perm | exact Hz]. }
  revert Hr. generalize (sort_by_key key r). intros l Hl.
  induction l as [|y l IHl]; [reflexivity |].
  simpl. rewrite Hx, (Hl y) by (left; reflexivity).
  destruct (key' x <=? key' y); [reflexivity |].
  f_equal. apply IHl. intros z Hz. apply Hl. right. exact Hz.
Qed.

Lemma pos_or_9999_number (order : list string) (k : string) :
  set_has k object_prototype_keys = false -> pos_or_9999 order k <> None.
Proof.
  intros H. unfold pos_or_9999.
  destruct (if (k =? "__proto__")%string then None else last_index_from k order 0);
    [discriminate |].
  rewrite H. discriminate.
Qed.

Lemma forallb_false_Exists {A : Type} (p : A -> bool) (l : list A) :
  forallb p l = false <-> Exists (fun x => p x = false) l.
Proof.
  induction l as [|x l IH]; simpl.
  - split; [discriminate | intros H; inversion H].
  - rewrite andb_false_iff, IH. split.
    + intros [H | H]; [left; exact H | right; exact H].
    + intros H. inversion H; subst; [left | right]; assumption.
Qed.

(** X21: the array that [applyCustomOrder] returns is settled by the script
    unless a saved order exists and the key of some row is not a number;
    whenever it is settled it holds the same rows, none lost and none
    twice, and without a saved order the rows are left as they are; and it
    is settled whenever no row id is the name of a property that every
    object inherits. *)
Theorem applyCustomOrder_keeps_rows :
  forall (item : Type) (id : item -> string) (order : list string)
         (items : list item),
    (applyCustomOrder id order items = None <->
     order <> [] /\
     Exists (fun x => pos_or_9999 order (id x) = None) items) /\
    (forall r,
        applyCustomOrder id order items = Some r ->
        Permutation r items /\ (order = [] -> r = items)) /\
    (Forall (fun x => set_has (id x) object_prototype_keys = false) items ->
     exists r, applyCustomOrder id order items = Some r /\ Permutation r items).
Proof.
  intros item id order items.
  assert (Hsome : forall r,
             applyCustomOrder id order items = Some r ->
             Permutation r items /\ (order = [] -> r = items)).
  { intros r. unfold applyCustomOrder.
    destruct order as [|o order'].
    - simpl. intros H. injection H as <-.
      split; [apply Permutation_refl | reflexivity].
    - cbn [length Nat.eqb].
      destruct (forallb _ items); [| discriminate].
      intros H. injection H as <-.
      split; [apply Permutation_sym, sort_by_key_perm | discriminate]. }
  assert (Hnone : applyCustomOrder id order items = None <->
                  order <> [] /\
                  Exists (fun x => pos_or_9999 order (id x) = None) items).
  { unfold applyCustomOrder.
    destruct order as [|o order'].
    - simpl. split; [discriminate | intros [H _]; contradiction].
    - cbn [length Nat.eqb].
      destruct (forallb _ items) eqn:E.
      + split; [discriminate |].
        intros [_ H]. exfalso.
        rewrite forallb_forall in E. apply Exists_exists in H.
        destruct H as [x [Hin Hx]]. specialize (E x Hin).
        rewrite Hx in E. discriminate.
      + split; [| reflexivity]. intros _. split; [discriminate |].
        apply forallb_false_Exists in E.
        apply Exists_impl with (2 := E). intros x Hx.
        destruct (pos_or_9999 (o :: order') (id x)); [discriminate | reflexivity]. }
  split; [exact Hnone |]. split; [exact Hsome |].
  intros Hall.
  destruct (applyCustomOrder id order items) as [r |] eqn:E.
  - exists r. split; [reflexivity | apply Hsome; reflexivity].
  - exfalso. destruct Hnone as [Hn _]. destruct (Hn eq_refl) as [_ Hex].
    apply Exists_exists in Hex. destruct Hex as [x [Hin Hx]].
    rewrite Forall_forall in Hall.
    exact (pos_or_9999_number order (id x) (Hall x Hin) Hx).
Qed.

Lemma applyCustomOrder_keeps_rows_witness :
  exists r,
    applyCustomOrder (fun x : string => x) ["b"; "a"]%string
                     ["a"; "b"]%string = Some r /\
    Permutation r ["a"; "b"]%string.
Proof.
  destruct (applyCustomOrder_keeps_rows string (fun x => x) ["b"; "a"]%string
              ["a"; "b"]%string) as [_ [_ H]].
  apply H. repeat constructor.
Defined.

(** A row called [constructor] that the saved order does not hold: its key
    is a function, the difference is [NaN], and the order is the engine's
    choice. *)
Example applyCustomOrder_inherited_name :
  applyCustomOrder (fun x : string => x) ["b"]%string
                   ["a"; "constructor"; "b"]%string = None.
Proof. reflexivity. Qed.

Lemma last_index_from_absent (k : string) (order : list string) :
  forall i, ~ In k order -> last_index_from k order i = None.
Proof.
  induction order as [|x r IH]; intros i H; [reflexivity |].
  simpl. rewrite IH by (intros Hin; apply H; right; exact Hin).
  destruct (String.eqb_spec x k) as [E | _]; [| reflexivity].
  exfalso. apply H. left. exact E.
Qed.

Lemma last_index_from_nth (order : list string) :
  NoDup order ->
  forall i j k,
    nth_error order j = Some k -> last_index_from k order i = Some (i + Z.of_nat j).
Proof.
  induction 1 as [|x r Hx Hnd IH]; intros i j k Hj.
  - destruct j; discriminate.
  - destruct j as [|j]; simpl in Hj.
    + injection Hj as ->. simpl.
      rewrite last_index_from_absent by exact Hx.
      rewrite String.eqb_refl. f_equal. lia.
    + simpl. rewrite (IH (i + 1) j k Hj). f_equal. lia.
Qed.

Lemma StronglySorted_of_nth {A : Type} (R : A -> A -> Prop) (l : list A) :
  (forall p q a b, (p < q)%nat ->
      nth_error l p = Some a -> nth_error l q = Some b -> R a b) ->
  StronglySorted R l.
Proof.
  induction l as [|x l IH]; intros H; constructor.
  - apply IH. intros p q a b Hpq Ha Hb. apply (H (S p) (S q)); [lia | exact Ha | exact Hb].
  - apply Forall_forall. intros y Hy. apply In_nth_error in Hy.
    destruct Hy as [q Hq]. apply (H 0%nat (S q)); [lia | reflexivity | exact Hq].
Qed.

Lemma StronglySorted_filter {A : Type} (R : A -> A -> Prop) (f : A -> bool) (l : list A) :
  StronglySorted R l -> StronglySorted R (filter f l).
Proof.
  induction 1 as [|x l Hs IH Hx]; simpl; [constructor |].
  destruct (f x); [| exact IH].
  constructor; [exact IH |].
  rewrite Forall_forall in *. intros y Hy. apply Hx.
  apply filter_In in Hy. apply Hy.
Qed.

Lemma StronglySorted_map {A B : Type} (R : B -> B -> Prop) (f : A -> B) (l : list A) :
  StronglySorted (fun a b => R (f a) (f b)) l -> StronglySorted R (map f l).
Proof.
  induction 1 as [|x l Hs IH Hx]; simpl; constructor; [exact IH |].
  apply Forall_map. exact Hx.
Qed.

Lemma applyCustomOrder_saved_order {item : Type} (id : item -> string)
      (order : list string) (items : list item) :
  order <> [] ->
  NoDup order ->
  NoDup (map id items) ->
  (forall x, In x items -> In (id x) order) ->
  ~ In "__proto__"%string (map id items) ->
  exists r,
    applyCustomOrder id order items = Some r /\
    map id r = filter (fun k => set_has k (map id items)) order.
Proof.
  intros Hne Hnd Hni Hsub Hproto.
  set (li := fun k => key_or_0 (last_index_from k order 0)).
  assert (Hpos : forall x, In x items ->
            exists j, nth_error order j = Some (id x) /\
                      pos_or_9999 order (id x) = Some (Z.of_nat j)).
  { intros x Hx. destruct (In_nth_error _ _ (Hsub x Hx)) as [j Hj].
    exists j. split; [exact Hj |]. unfold pos_or_9999.
    replace (id x =? "__proto__")%string with false.
    - rewrite (last_index_from_nth order Hnd 0 j (id x) Hj). reflexivity.
    - symmetry. apply String.eqb_neq. intros E. apply Hproto.
      rewrite <- E. apply in_map. exact Hx. }
  assert (Hkey : forall x, In x items ->
            key_or_0 (pos_or_9999 order (id x)) = li (id x)).
  { intros x Hx. destruct (Hpos x Hx) as [j [Hj Hp]]. rewrite Hp.
    unfold li. rewrite (last_index_from_nth order Hnd 0 j (id x) Hj). reflexivity. }
  exists (sort_by_key (fun x => li (id x)) items).
  split.
  - unfold applyCustomOrder.
    destruct order as [|o order']; [contradiction |]. cbn [length Nat.eqb].
    replace (forallb _ items) with true.
    + f_equal. apply sort_by_key_ext. exact Hkey.
    + symmetry. apply forallb_forall. intros x Hx.
      destruct (Hpos x Hx) as [j [_ Hp]]. rewrite Hp. reflexivity.
  - set (r := sort_by_key (fun x => li (id x)) items).
    assert (Hperm : Permutation (map id items) (map id r))
      by (apply Permutation_map, sort_by_key_perm).
    apply (sorted_perm_unique (fun a b => li a <= li b)).
    + apply StronglySorted_map. apply sort_by_key_sorted.
    + apply StronglySorted_filter. apply StronglySorted_of_nth.
      intros p q a b Hpq Ha Hb. unfold li.
      rewrite (last_index_from_nth order Hnd 0 p a Ha).
      rewrite (last_index_from_nth order Hnd 0 q b Hb). simpl. lia.
    + apply NoDup_Permutation.
      * apply Permutation_NoDup with (map id items); assumption.
      * apply NoDup_filter. exact Hnd.
      * intros k. rewrite filter_In, set_has_In. split.
        -- intros Hk.
           assert (Hk' : In k (map id items))
             by (apply Permutation_in with (map id r);
                 [apply Permutation_sym; exact Hperm | exact Hk]).
           split; [| exact Hk'].
           apply in_map_iff in Hk'. destruct Hk' as [x [<- Hx]]. apply Hsub. exact Hx.
        -- intros [_ Hk]. apply Permutation_in with (map id items); assumption.
    + intros a b Ha Hb Hab Hba.
      assert (Ha' : In a order).
      { apply (Permutation_in _ (Permutation_sym Hperm)) in Ha.
        apply in_map_iff in Ha. destruct Ha as [x [<- Hx]]. apply Hsub. exact Hx. }
      assert (Hb' : In b order).
      { apply (Permutation_in _ (Permutation_sym Hperm)) in Hb.
        apply in_map_iff in Hb. destruct Hb as [x [<- Hx]]. apply Hsub. exact Hx. }
      destruct (In_nth_error _ _ Ha') as [p Hp].
      destruct (In_nth_error _ _ Hb') as [q Hq].
      unfold li in Hab, Hba.
      rewrite (last_index_from_nth order Hnd 0 p a Hp) in Hab, Hba.
      rewrite (last_index_from_nth order Hnd 0 q b Hq) in Hab, Hba.
      simpl in Hab, Hba. assert (p = q) by lia. subst q. congruence.
Qed.

(** X22: rows whose ids are all in the saved order come out in that
    order, wherever they were before: the list of their ids is the saved
    order restricted to them.  (Ids are distinct, and none is
    ["__proto__"].) *)
Theorem applyCustomOrder_follows_saved_order :
  forall (item : Type) (id : item -> string) (order : list string)
         (items : list item),
    order <> [] ->
    NoDup order ->
    NoDup (map id items) ->
    (forall x, In x items -> In (id x) order) ->
    ~ In "__proto__"%string (map id items) ->
    exists r,
      applyCustomOrder id order items = Some r /\
      map id r = filter (fun k => set_has k (map id items)) order.
Proof.
  intros item id order items. apply applyCustomOrder_saved_order.
Qed.

Lemma applyCustomOrder_follows_saved_order_witness :
  exists r,
    applyCustomOrder (fun x : string => x) ["c"; "zz"; "a"; "b"]%string
                     ["a"; "b"; "c"]%string = Some r /\
    map (fun x : string => x) r
    = filter (fun k => set_has k (map (fun x : string => x) ["a"; "b"; "c"]%string))
             ["c"; "zz"; "a"; "b"]%string.
Proof.
  apply (applyCustomOrder_follows_saved_order string (fun x => x)
           ["c"; "zz"; "a"; "b"]%string ["a"; "b"; "c"]%string).
  - discriminate.
  - repeat constructor; simpl; intuition discriminate.
  - repeat constructor; simpl; intuition discriminate.
  - intros x [<- | [<- | [<- | []]]]; simpl; auto.
  - simpl. intuition discriminate.
Defined.

(** X23: what a drop saves is what the list shows next: after
    [performDrop] the library rows, sorted by the saved order, appear in
    exactly that order (the saved order restricted to them), wherever the
    rows were before.  (Ids are distinct, and none is ["__proto__"].) *)
Theorem drop_then_reload_shows_saved_order :
  forall (item : Type) (id : item -> string)
         (all filteredItems library : list item)
         (fromIdx toIdx : Z) (order : list string),
    NoDup (map id all) ->
    performDrop id all filteredItems fromIdx toIdx = Some order ->
    NoDup (map id library) ->
    (forall x, In x library -> In (id x) (map id all)) ->
    ~ In "__proto__"%string (map id library) ->
    exists r,
      applyCustomOrder id order library = Some r /\
      map id r = filter (fun k => set_has k (map id library)) order.
Proof.
  intros item id all filtered library fromIdx toIdx order Hnd Hd Hnl Hsub Hproto.
  pose proof (performDrop_perm id all filtered fromIdx toIdx order Hd) as Hp.
  apply applyCustomOrder_saved_order; try assumption.
  - intros E. subst order.
    apply Permutation_nil in Hp.
    unfold performDrop in Hd.
    destruct (js_get filtered fromIdx) as [f |]; [| discriminate].
    destruct (js_get filtered toIdx) as [t |]; [| discriminate].
    destruct (splice_remove1 _ all) as [[m |] all1] eqn:Er; [| discriminate].
    destruct all; [| discriminate].
    unfold splice_remove1 in Er. destruct (splice_start _ _); discriminate.
  - apply Permutation_NoDup with (map id all);
      [apply Permutation_sym; exact Hp | exact Hnd].
  - intros x Hx. apply Permutation_in with (map id all);
      [apply Permutation_sym; exact Hp | apply Hsub; exact Hx].
Qed.

Lemma drop_then_reload_shows_saved_order_witness :
  exists r,
    applyCustomOrder (fun x : string => x) ["b"; "c"; "a"; "d"]%string
                     ["a"; "b"; "c"]%string = Some r /\
    map (fun x : string => x) r
    = filter (fun k => set_has k (map (fun x : string => x) ["a"; "b"; "c"]%string))
             ["b"; "c"; "a"; "d"]%string.
Proof.
  apply (drop_then_reload_shows_saved_order string (fun x => x)
           ["a"; "b"; "c"; "d"]%string ["a"; "b"; "c"; "d"]%string
           ["a"; "b"; "c"]%string 0 3).
  - repeat constructor; simpl; intuition discriminate.
  - reflexivity.
  - repeat constructor; simpl; intuition discriminate.
  - intros x [<- | [<- | [<- | []]]]; simpl; auto.
  - simpl. intuition discriminate.
Defined.
